(** * Honold: a flash store for Hono applications

    A shallow embedding of the flash store (flash-store.class.ts), its data
    model (model.ts), the form-data codec (formdata-flash.ts) and the
    request-scoped entry points (flash.ts, old.ts), followed by the
    properties the specification states about them.

    Conventions of the embedding:
    - a JavaScript string is a [string]; the code compares strings, tests
      their length against 0 and upper-cases the request method;
    - a thrown exception is an explicit [Throw] result;
    - a mutable object (the store, the request context) is threaded through
      the operations as a value;
    - a plain object used as a dictionary is the list of its own properties
      in JavaScript property order;
    - what the package takes from outside and does not define -- the
      runtime's [JSON.parse] and [JSON.stringify], the check of cookie names
      in Hono's cookie serializer -- is a parameter, with a reference
      instance on which the scenarios run. *)

From Stdlib Require Import String Ascii List ZArith NArith Lia Bool Permutation DecimalString.
From stdpp Require Import base list strings gmap.
Import ListNotations.
Open Scope string_scope.
Open Scope list_scope.

(** ** JavaScript values and results *)

(** The errors the code can meet. *)
Inductive JSError : Type :=
| Error (message : string)
| TypeError (message : string)
| SyntaxError (message : string).

(** The outcome of evaluating a piece of code: a value, or a thrown error. *)
Inductive Completion (A : Type) : Type :=
| Normal (a : A)
| Throw (e : JSError).
Arguments Normal {A} a.
Arguments Throw {A} e.

Definition bind {A B : Type} (c : Completion A) (k : A -> Completion B) : Completion B :=
  match c with
  | Normal a => k a
  | Throw e => Throw e
  end.

Notation "'do' x '<-' c ';' k" := (bind c (fun x => k))
  (at level 10, x pattern, c at level 100, k at level 200).

(** [try { body } catch { handler }]. *)
Definition try_catch {A : Type} (body : Completion A) (handler : Completion A) : Completion A :=
  match body with
  | Normal a => Normal a
  | Throw _ => handler
  end.

(** [JSONValue] of Hono's utility types: what [JSON.parse] can return and
    what a flash value holds.  A number is carried by the text that
    [Number.prototype.toString] gives for it, which is also the text
    [JSON.stringify] writes; no operation of the store computes with
    numbers.  An object is the list of its own properties, in property
    order. *)
#[local] Unset Elimination Schemes.
Inductive JSONValue : Type :=
| JNull
| JBool (b : bool)
| JNumber (text : string)
| JString (s : string)
| JArray (items : list JSONValue)
| JObject (props : list (string * JSONValue)).
#[local] Set Elimination Schemes.

(** The two functions of the JavaScript runtime the store calls on cookie
    values.  [JSON_parse] yields [None] where [JSON.parse] throws a
    [SyntaxError]. *)
Class JSONRuntime : Type := {
  JSON_parse : string -> option JSONValue;
  JSON_stringify : JSONValue -> string
}.

(** ** Property tables

    The own properties of a plain object, kept in the order in which
    [for ... in], [Object.keys] and [JSON.stringify] visit them: array-index
    names in ascending numeric order first, then the other names in the
    order of their creation. *)

Definition digit_of (c : ascii) : option N :=
  let n := N_of_ascii c in
  if ((48 <=? n) && (n <=? 57))%N then Some (n - 48)%N else None.

Fixpoint digits_value (cs : list ascii) (acc : N) : option N :=
  match cs with
  | [] => Some acc
  | c :: rest =>
      match digit_of c with
      | Some d => digits_value rest (acc * 10 + d)%N
      | None => None
      end
  end.

(** An array index is the canonical decimal text of an integer below
    [2^32 - 1]. *)
Definition array_index (name : string) : option N :=
  match list_ascii_of_string name with
  | [] => None
  | ["0"%char] => Some 0%N
  | "0"%char :: _ => None
  | cs =>
      match digits_value cs 0 with
      | Some n => if (n <? 4294967295)%N then Some n else None
      | None => None
      end
  end.

Section PropertyTable.
Context {V : Type}.

Fixpoint obj_get (name : string) (o : list (string * V)) : option V :=
  match o with
  | [] => None
  | (n, v) :: rest => if String.eqb n name then Some v else obj_get name rest
  end.

(** Assignment to an existing own property: the value changes, the
    position does not. *)
Fixpoint obj_update (name : string) (v : V) (o : list (string * V)) : list (string * V) :=
  match o with
  | [] => []
  | (n, w) :: rest =>
      if String.eqb n name then (n, v) :: rest else (n, w) :: obj_update name v rest
  end.

Fixpoint obj_insert_index (i : N) (name : string) (v : V) (o : list (string * V))
  : list (string * V) :=
  match o with
  | [] => [(name, v)]
  | (n, w) :: rest =>
      match array_index n with
      | Some j => if (j <? i)%N then (n, w) :: obj_insert_index i name v rest
                  else (name, v) :: o
      | None => (name, v) :: o
      end
  end.

(** Creation of a new own property. *)
Definition obj_define (name : string) (v : V) (o : list (string * V)) : list (string * V) :=
  match array_index name with
  | Some i => obj_insert_index i name v o
  | None => o ++ [(name, v)]
  end.

(** [o[name] = v]. *)
Definition obj_set (name : string) (v : V) (o : list (string * V)) : list (string * V) :=
  match obj_get name o with
  | Some _ => obj_update name v o
  | None => obj_define name v o
  end.
End PropertyTable.

(** The names every plain object inherits from [Object.prototype] on Deno,
    the runtime of this package; reading one of them from an object without
    such an own property yields the inherited function, never [undefined].
    Deno removes the accessor [__proto__] from [Object.prototype], so that
    name is not among them: it reads as [undefined] and is assigned as an own
    property, like any other name. *)
Definition Object_prototype_names : list string :=
  [ "constructor"; "__defineGetter__"; "__defineSetter__"; "hasOwnProperty";
    "__lookupGetter__"; "__lookupSetter__"; "isPrototypeOf";
    "propertyIsEnumerable"; "toString"; "valueOf"; "toLocaleString" ].

Definition inherited (name : string) : bool :=
  existsb (String.eqb name) Object_prototype_names.

(** ** model.ts *)

Record FlashValue : Type := mkFlashValue {
  key : list string;
  value : JSONValue
}.

Record Flash : Type := mkFlash {
  values : list FlashValue;
  valid : bool
}.

Definition is_JString (v : JSONValue) : bool :=
  match v with
  | JString _ => true
  | _ => false
  end.

(** [isFlashValue]: an object (an array has no [key] property) whose [key]
    is an array of strings and which has a [value] property. *)
Definition isFlashValue (v : JSONValue) : bool :=
  match v with
  | JObject props =>
      match obj_get "key" props with
      | Some (JArray ks) =>
          if forallb is_JString ks
          then match obj_get "value" props with
               | Some _ => true
               | None => false
               end
          else false
      | _ => false
      end
  | _ => false
  end.

(** [isFlash]: an object whose [values] is an array of flash values and
    whose [valid] is a boolean. *)
Definition isFlash (v : JSONValue) : bool :=
  match v with
  | JObject props =>
      match obj_get "values" props with
      | Some (JArray vs) =>
          if forallb isFlashValue vs
          then match obj_get "valid" props with
               | Some (JBool _) => true
               | _ => false
               end
          else false
      | _ => false
      end
  | _ => false
  end.

(** The view of a parsed value as a [Flash] once [isFlash] has accepted it.
    The type guard is a cast, the same object is used; properties other than
    [key], [value], [values] and [valid], which a cookie not written by the
    store may carry, are not kept, nor is the order of the properties: what
    the store reads, and writes again after [reflash], is seen through
    these four. *)
Definition string_of_JSON (v : JSONValue) : string :=
  match v with
  | JString s => s
  | _ => ""
  end.

Definition as_FlashValue (v : JSONValue) : FlashValue :=
  match v with
  | JObject props =>
      {| key := match obj_get "key" props with
                | Some (JArray ks) => map string_of_JSON ks
                | _ => []
                end;
         value := match obj_get "value" props with
                  | Some w => w
                  | None => JNull
                  end |}
  | _ => {| key := []; value := JNull |}
  end.

Definition as_Flash (v : JSONValue) : Flash :=
  match v with
  | JObject props =>
      {| values := match obj_get "values" props with
                   | Some (JArray vs) => map as_FlashValue vs
                   | _ => []
                   end;
         valid := match obj_get "valid" props with
                  | Some (JBool b) => b
                  | _ => false
                  end |}
  | _ => {| values := []; valid := false |}
  end.

(** The object a [Flash] built by the store is, as [JSON.stringify] sees
    it: the store writes [{ valid, values }] and [{ key, value }]. *)
Definition FlashValue_to_JSON (fv : FlashValue) : JSONValue :=
  JObject [("key", JArray (map JString (key fv))); ("value", value fv)].

Definition Flash_to_JSON (f : Flash) : JSONValue :=
  JObject [("valid", JBool (valid f));
           ("values", JArray (map FlashValue_to_JSON (values f)))].

(** ** formdata-flash.ts *)

(** An entry of a form submission holds a string or an uploaded file. *)
Inductive FormDataEntryValue : Type :=
| StringEntry (s : string)
| FileEntry (filename : string).

(** A [FormData] is the list of its entries, in submission order. *)
Definition FormData : Type := list (string * FormDataEntryValue).

Definition FormData_append (name : string) (s : string) (fd : FormData) : FormData :=
  fd ++ [(name, StringEntry s)].

Definition FormData_getAll (name : string) (fd : FormData) : list FormDataEntryValue :=
  map snd (List.filter (fun e => String.eqb (fst e) name) fd).

(** [get] yields the first value of the name, or [null]. *)
Definition FormData_get (name : string) (fd : FormData) : option FormDataEntryValue :=
  head (FormData_getAll name fd).

Definition FormData_has (name : string) (fd : FormData) : bool :=
  existsb (fun e => String.eqb (fst e) name) fd.

(** One turn of the loop of [serializeFormData] on the object built so far.
    A name that is not an own property of [obj] but is inherited from
    [Object.prototype] reads as a truthy value without [push]. *)
Definition serialize_entry (obj : list (string * list string))
    (entry : string * FormDataEntryValue) : Completion (list (string * list string)) :=
  match snd entry with
  | FileEntry _ => Normal obj
  | StringEntry s =>
      let name := fst entry in
      let obj1 :=
        match obj_get name obj with
        | Some _ => obj
        | None => if inherited name then obj else obj_set name [] obj
        end in
      match obj_get name obj1 with
      | Some arr => Normal (obj_set name (arr ++ [s]) obj1)
      | None => Throw (TypeError "obj[key].push is not a function")
      end
  end.

Fixpoint serialize_entries (entries : FormData) (obj : list (string * list string))
  : Completion (list (string * list string)) :=
  match entries with
  | [] => Normal obj
  | e :: rest => do obj' <- serialize_entry obj e; serialize_entries rest obj'
  end.

Definition serializeFormData (formData : FormData) : Completion (list (string * list string)) :=
  serialize_entries formData [].

(** A [Record<string, string[]>] as the JSON value it is. *)
Definition Record_to_JSON (obj : list (string * list string)) : JSONValue :=
  JObject (map (fun p => (fst p, JArray (map JString (snd p)))) obj).

(** The decimal name of an index. *)
Definition index_name (i : nat) : string := NilZero.string_of_uint (Nat.to_uint i).

Definition indexed {A : Type} (l : list A) : list (string * A) :=
  combine (map index_name (seq 0 (length l))) l.

Definition chars_of (s : string) : list JSONValue :=
  map (fun c => JString (String c EmptyString)) (list_ascii_of_string s).

(** [for (const key in data)]: the enumerable property names of [data], each
    with [data[key]]. *)
Definition for_in (data : JSONValue) : list (string * JSONValue) :=
  match data with
  | JObject props => props
  | JArray items => indexed items
  | JString s => indexed (chars_of s)
  | _ => []
  end.

(** [for (const value of v)]: the items of an iterable; anything else is not
    iterable. *)
Definition for_of (v : JSONValue) : Completion (list JSONValue) :=
  match v with
  | JArray items => Normal items
  | JString s => Normal (chars_of s)
  | _ => Throw (TypeError "data[key] is not iterable")
  end.

(** [ToString], the conversion [FormData.append] applies to a value that is
    not a string.  An array is joined with commas, [null] items as empty
    texts.  An object parsed from JSON has no callable own property: with an
    own [toString] property neither that nor [valueOf] yields a primitive and
    the conversion throws; without one, [Object.prototype.toString]
    answers. *)
Fixpoint js_ToString (v : JSONValue) : Completion string :=
  match v with
  | JNull => Normal "null"
  | JBool true => Normal "true"
  | JBool false => Normal "false"
  | JNumber text => Normal text
  | JString s => Normal s
  | JArray items =>
      do texts <-
        (fix join (l : list JSONValue) : Completion (list string) :=
           match l with
           | [] => Normal []
           | e :: rest =>
               do t <- match e with JNull => Normal "" | _ => js_ToString e end;
               do ts <- join rest;
               Normal (t :: ts)
           end) items;
      Normal (String.concat "," texts)
  | JObject props =>
      match obj_get "toString" props with
      | Some _ => Throw (TypeError "Cannot convert object to primitive value")
      | None => Normal "[object Object]"
      end
  end.

(** [for (const value of data[key]) formData.append(key, value)]. *)
Fixpoint append_values_of (name : string) (vs : list JSONValue) (formData : FormData)
  : Completion FormData :=
  match vs with
  | [] => Normal formData
  | w :: rest =>
      do text <- js_ToString w;
      append_values_of name rest (FormData_append name text formData)
  end.

Fixpoint deserialize_props (props : list (string * JSONValue)) (formData : FormData)
  : Completion FormData :=
  match props with
  | [] => Normal formData
  | (name, v) :: rest =>
      do vs <- for_of v;
      do formData' <- append_values_of name vs formData;
      deserialize_props rest formData'
  end.

(** [deserializeFormData].  The parameter is declared
    [Record<string, string[]>]; callers pass a value read from the cookie
    under an unchecked cast, so the function is given on every JSON value. *)
Definition deserializeFormData (data : JSONValue) : Completion FormData :=
  deserialize_props (for_in data) [].

(** ** Key paths and filters (flash-store.class.ts) *)

(** A key argument: [string | string[]]. *)
Inductive KeyArg : Type :=
| KString (s : string)
| KArray (path : list string).

(** A filter argument: [string | string[] | string[][]].  The empty array is
    both [FKey (KArray [])] and [FNested []]. *)
Inductive FilterArg : Type :=
| FKey (k : KeyArg)
| FNested (paths : list (list string)).

(** [[key].flat()]. *)
Definition flat_key (k : KeyArg) : list string :=
  match k with
  | KString s => [s]
  | KArray path => path
  end.

(** [filters.length], of a string or of an array. *)
Definition filter_length (filters : FilterArg) : nat :=
  match filters with
  | FKey (KString s) => String.length s
  | FKey (KArray path) => List.length path
  | FNested paths => List.length paths
  end.

(** [l.every((x, i) => p(x, i))]. *)
Fixpoint every_from {A : Type} (p : A -> nat -> bool) (i : nat) (l : list A) : bool :=
  match l with
  | [] => true
  | x :: rest => p x i && every_from p (S i) rest
  end.

Definition every {A : Type} (p : A -> nat -> bool) (l : list A) : bool :=
  every_from p 0 l.

(** [key.length > i && key[i] === part]. *)
Definition part_matches (key : list string) (part : string) (i : nat) : bool :=
  (i <? List.length key)%nat &&
  match nth_error key i with
  | Some k => String.eqb k part
  | None => false
  end.

Definition normalizeFilters (filters : FilterArg) : list (list string) :=
  match filters with
  | FKey (KString s) => [[s]]
  | FNested (p :: paths) => p :: paths
  | FNested [] => []
  | FKey (KArray []) => []
  | FKey (KArray (s :: path)) => [s :: path]
  end.

Definition checkKeyAgainstFilters (key : list string) (filter : FilterArg) : bool :=
  existsb (fun f => every (part_matches key) f) (normalizeFilters filter).

Definition filterFlashValues (values : list FlashValue) (pick omit : FilterArg)
  : list FlashValue :=
  List.filter
    (fun fv =>
       if (0 <? filter_length pick)%nat && negb (checkKeyAgainstFilters (key fv) pick)
       then false
       else if (0 <? filter_length omit)%nat && checkKeyAgainstFilters (key fv) omit
            then false
            else true)
    values.

(** ** The request context

    The part of Hono's [Context] the code touches: the method, the cookies
    and the form data of the request ([None] for a body that does not decode
    as form data), and the status and the [Set-Cookie] headers of the
    response.
    [getCookie], [setCookie] and [deleteCookie] are Hono's cookie helpers,
    given by their effect on these fields for a cookie name that Hono's
    serializer accepts: [setCookie] appends one header, [deleteCookie]
    returns the request's cookie and appends the header that expires it.
    The helpers on any cookie name, with the serializer's check, are
    [Hono_setCookie] and [Hono_deleteCookie] below. *)

Record SetCookie : Type := mkSetCookie {
  sc_name : string;
  sc_value : string;
  sc_path : option string;
  sc_maxAge : option Z
}.

Record HonoContext : Type := mkHonoContext {
  req_method : string;
  req_cookies : list (string * string);
  req_formData : option FormData;
  res_status : Z;
  res_cookies : list SetCookie
}.

Definition getCookie (c : HonoContext) (name : string) : option string :=
  obj_get name (req_cookies c).

Definition setCookie (c : HonoContext) (name value : string)
    (path : option string) (maxAge : option Z) : HonoContext :=
  {| req_method := req_method c;
     req_cookies := req_cookies c;
     req_formData := req_formData c;
     res_status := res_status c;
     res_cookies := res_cookies c ++
       [ {| sc_name := name; sc_value := value;
            sc_path := match path with Some p => Some p | None => Some "/" end;
            sc_maxAge := maxAge |} ] |}.

Definition deleteCookie (c : HonoContext) (name : string) : option string * HonoContext :=
  (getCookie c name, setCookie c name "" None (Some 0%Z)).

(** Hono serializes the cookie before it appends the header, and the
    serializer throws an [Error] for some cookie names: with the options the
    store passes ([maxAge: 0] to [deleteCookie], [path: "/"] to [setCookie],
    never [secure]) for every name that begins with [__Secure-] or with
    [__Host-], among others.  Which names are rejected is Hono's rule, not
    this package's: [serialize_error name] is the error thrown for the name,
    [None] where the serializer accepts it. *)
Class CookieSerializer : Type := {
  serialize_error : string -> option JSError
}.

Definition Hono_setCookie `{CookieSerializer} (c : HonoContext) (name value : string)
    (path : option string) (maxAge : option Z) : Completion HonoContext :=
  match serialize_error name with
  | Some e => Throw e
  | None => Normal (setCookie c name value path maxAge)
  end.

Definition Hono_deleteCookie `{CookieSerializer} (c : HonoContext) (name : string)
  : Completion (option string * HonoContext) :=
  let deletedCookie := getCookie c name in
  do c' <- Hono_setCookie c name "" None (Some 0%Z);
  Normal (deletedCookie, c').

(** [!rawCookieValue]: [undefined] and the empty string are falsy. *)
Definition falsy (raw : option string) : bool :=
  match raw with
  | None => true
  | Some s => String.eqb s ""
  end.

(** ** flash-store.class.ts *)

(** The result of the two overloads of [get]. *)
Inductive GetResult : Type :=
| WholeFlash (f : Flash)
| MatchingValues (vs : list JSONValue).

(** The options of [reflash]; an absent option takes its default. *)
Record ReflashOptions : Type := mkReflashOptions {
  opt_append : option bool;
  opt_omit : option FilterArg;
  opt_pick : option FilterArg
}.

Definition no_options : ReflashOptions :=
  {| opt_append := None; opt_omit := None; opt_pick := None |}.

Module FlashStore.

Record t : Type := mk {
  context : HonoContext;
  cookieName : string;
  current : Flash;
  next : Flash
}.

Definition empty : Flash := {| values := []; valid := false |}.

Definition with_next (nxt : Flash) (s : t) : t :=
  {| context := context s; cookieName := cookieName s;
     current := current s; next := nxt |}.

Section WithRuntime.
Context `{JSONRuntime}.

Definition parse (text : string) : Completion JSONValue :=
  match JSON_parse text with
  | Some v => Normal v
  | None => Throw (SyntaxError "Unexpected token in JSON")
  end.

Definition initialize (c : HonoContext) (name : string)
  : Completion (Flash * HonoContext) :=
  let (rawCookieValue, c') := deleteCookie c name in
  match rawCookieValue with
  | None => Normal (empty, c')
  | Some raw =>
      if falsy (Some raw) then Normal (empty, c')
      else
        try_catch
          (do parsed <- parse raw;
           if negb (isFlash parsed) then Normal (empty, c')
           else Normal (as_Flash parsed, c'))
          (Normal (empty, c'))
  end.

(** [new FlashStore(context, cookieName)], for a cookie name that Hono's
    serializer accepts. *)
Definition new (c : HonoContext) (name : string) : Completion t :=
  do r <- initialize c name;
  Normal {| context := snd r; cookieName := name;
            current := fst r; next := empty |}.

(** [new FlashStore(context, cookieName)] on any cookie name.
    [deleteCookie] is the first call of [initialize] and stands outside its
    [try]: where the serializer rejects the name, the error leaves the
    constructor before the cookie is looked at; where it accepts the name,
    the constructor goes on as [new] does. *)
Definition construct `{CookieSerializer} (c : HonoContext) (name : string)
  : Completion t :=
  do _ <- Hono_deleteCookie c name;
  new c name.

Definition commit (s : t) : t :=
  if negb (valid (next s)) then s
  else
    let flashData := JSON_stringify (Flash_to_JSON (next s)) in
    {| context := setCookie (context s) (cookieName s) flashData (Some "/") None;
       cookieName := cookieName s; current := current s; next := next s |}.
End WithRuntime.

Definition flash (k : KeyArg) (v : JSONValue) (s : t) : t :=
  with_next
    {| valid := true;
       values := values (next s) ++ [ {| key := "ext" :: flat_key k; value := v |} ] |}
    s.

(** [await this.context.req.formData()]. *)
Definition formData (c : HonoContext) : Completion FormData :=
  match req_formData c with
  | Some fd => Normal fd
  | None => Throw (TypeError "Request body is not form data")
  end.

Definition flashInputs (s : t) : Completion t :=
  do formData <- formData (context s);
  do serialized <- serializeFormData formData;
  Normal (with_next
            {| valid := true;
               values := values (next s) ++
                 [ {| key := ["inputs"]; value := Record_to_JSON serialized |} ] |}
            s).

Definition is_inputs_key (k : list string) : bool :=
  (List.length k =? 1)%nat &&
  match nth_error k 0 with
  | Some seg => String.eqb seg "inputs"
  | None => false
  end.

(** [getInputs]: [None] is [undefined]. *)
Definition getInputs (s : t) : Completion (option FormData) :=
  if negb (valid (current s)) then Normal None
  else
    match find (fun fv => is_inputs_key (key fv)) (values (current s)) with
    | None => Normal None
    | Some inputValues =>
        do fd <- deserializeFormData (value inputValues);
        Normal (Some fd)
    end.

Definition get (keyFilter : option KeyArg) (s : t) : GetResult :=
  match keyFilter with
  | None => WholeFlash (current s)
  | Some k =>
      let keyFilter := "ext" :: flat_key k in
      MatchingValues
        (map value
           (List.filter (fun fv => every (part_matches (key fv)) keyFilter)
              (values (current s))))
  end.

Definition reflash (options : ReflashOptions) (s : t) : t :=
  let append := default true (opt_append options) in
  let omit := default (FNested []) (opt_omit options) in
  let pick := default (FNested []) (opt_pick options) in
  let valuesToReflash := filterFlashValues (values (current s)) pick omit in
  if append
  then with_next {| valid := true; values := values (next s) ++ valuesToReflash |} s
  else with_next {| valid := true; values := valuesToReflash |} s.

End FlashStore.

(** The calls a request handler can make on its store, and their effect on
    it; a call that throws leaves the store as it was. *)
Inductive StoreCall : Type :=
| CallFlash (k : KeyArg) (v : JSONValue)
| CallFlashInputs
| CallGetInputs
| CallGet (keyFilter : option KeyArg)
| CallReflash (options : ReflashOptions).

Definition call (c : StoreCall) (s : FlashStore.t) : FlashStore.t :=
  match c with
  | CallFlash k v => FlashStore.flash k v s
  | CallFlashInputs =>
      match FlashStore.flashInputs s with
      | Normal s' => s'
      | Throw _ => s
      end
  | CallGetInputs => s
  | CallGet _ => s
  | CallReflash options => FlashStore.reflash options s
  end.

Definition calls (cs : list StoreCall) (s : FlashStore.t) : FlashStore.t :=
  fold_left (fun st c => call c st) cs s.

(** ** flash.ts and old.ts: the functions bound to the request scope

    [scope] is what [FLASH_RUNTIME_STORE.getStore()] returns where the
    function runs: the store bound by the middleware, or [undefined].  A
    function returns its result with the store as it has changed it. *)

Definition scope_error : JSError :=
  Error "FlashStore is not available outside of honold middleware.".

Definition getFlashStore (scope : option FlashStore.t) : Completion FlashStore.t :=
  match scope with
  | None => Throw scope_error
  | Some store => Normal store
  end.

Definition flashInputs (scope : option FlashStore.t) : Completion FlashStore.t :=
  do store <- getFlashStore scope;
  FlashStore.flashInputs store.

Definition flash (k : KeyArg) (v : JSONValue) (scope : option FlashStore.t)
  : Completion FlashStore.t :=
  do store <- getFlashStore scope;
  Normal (FlashStore.flash k v store).

(** The function renames [except] to [omit] and passes [append] on with its
    default already applied. *)
Definition reflash (append : option bool) (pick except : option FilterArg)
    (scope : option FlashStore.t) : Completion FlashStore.t :=
  do store <- getFlashStore scope;
  Normal (FlashStore.reflash
            {| opt_append := Some (default true append);
               opt_omit := except; opt_pick := pick |}
            store).

Definition getFlash (filters : KeyArg) (scope : option FlashStore.t)
  : Completion GetResult :=
  do store <- getFlashStore scope;
  Normal (FlashStore.get (Some filters) store).

Definition old (name : string) (scope : option FlashStore.t)
  : Completion (option FormDataEntryValue) :=
  do store <- getFlashStore scope;
  do fd <- FlashStore.getInputs store;
  match fd with
  | None => Normal None
  | Some fd => Normal (FormData_get name fd)
  end.

Definition oldChecked (name : string) (scope : option FlashStore.t)
  : Completion (option bool) :=
  do store <- getFlashStore scope;
  do fd <- FlashStore.getInputs store;
  match fd with
  | None => Normal None
  | Some fd => Normal (Some (FormData_has name fd))
  end.

Definition includes (optionValue : string) (vs : list FormDataEntryValue) : bool :=
  existsb (fun v => match v with
                    | StringEntry s => String.eqb s optionValue
                    | FileEntry _ => false
                    end) vs.

Definition oldSelected (name optionValue : string) (scope : option FlashStore.t)
  : Completion (option bool) :=
  do store <- getFlashStore scope;
  do fd <- FlashStore.getInputs store;
  match fd with
  | None => Normal None
  | Some fd => Normal (Some (includes optionValue (FormData_getAll name fd)))
  end.

(** [String.prototype.toUpperCase], on ASCII letters. *)
Definition upper (c : ascii) : ascii :=
  let n := N_of_ascii c in
  if ((97 <=? n) && (n <=? 122))%N then ascii_of_N (n - 32) else c.

Definition toUpperCase (s : string) : string :=
  string_of_list_ascii (map upper (list_ascii_of_string s)).

(** [honold(options)], the middleware.  [next] is the outcome of
    [await FLASH_RUNTIME_STORE.run(store, next)]: Hono's dispatch of what is
    downstream, run with the store bound.  It resolves with the store as
    downstream left it, the response in its context, or it rejects, and then
    the middleware ends there, before the commit.  Under Hono the dispatch
    resolves also when a handler throws an [Error]: Hono catches it and puts
    the answer of the application's error handler in the response; it
    rejects when that error handler itself throws.  The cookie that [commit]
    sets has the name [deleteCookie] has accepted in the constructor. *)
Definition honold `{JSONRuntime} `{CookieSerializer}
    (autoReflash : option bool) (cookieName : option string)
    (c : HonoContext) (next : FlashStore.t -> Completion FlashStore.t)
  : Completion FlashStore.t :=
  let autoReflash := default true autoReflash in
  let cookieName := default "flash" cookieName in
  do store <- FlashStore.construct c cookieName;
  do store <- next store;
  let res := FlashStore.context store in
  let store :=
    if autoReflash && (300 <=? res_status res)%Z && (res_status res <? 400)%Z &&
       String.eqb (toUpperCase (req_method res)) "GET"
    then FlashStore.reflash no_options store
    else store in
  Normal (FlashStore.commit store).

(** ** A reference JSON runtime

    An executable [JSON.stringify] and [JSON.parse] for ASCII text, as an
    instance of [JSONRuntime] on which the scenarios can be run.  A number
    is read as the text written: that is the text of the number for an
    integer in canonical form, and the scenarios use no other. *)

Module ReferenceJSON.

Definition hex_digit (n : N) : ascii :=
  nth (N.to_nat n) (list_ascii_of_string "0123456789abcdef") "0"%char.

(** [QuoteJSONString] on one character. *)
Definition quote_char (c : ascii) : list ascii :=
  let n := N_of_ascii c in
  if (n =? 34)%N then [ascii_of_N 92; ascii_of_N 34]
  else if (n =? 92)%N then [ascii_of_N 92; ascii_of_N 92]
  else if (n =? 8)%N then list_ascii_of_string "\b"
  else if (n =? 9)%N then list_ascii_of_string "\t"
  else if (n =? 10)%N then list_ascii_of_string "\n"
  else if (n =? 12)%N then list_ascii_of_string "\f"
  else if (n =? 13)%N then list_ascii_of_string "\r"
  else if (n <? 32)%N
       then list_ascii_of_string "\u00" ++ [hex_digit (n / 16); hex_digit (n mod 16)]
       else [c].

Definition quote (s : string) : string :=
  string_of_list_ascii
    (ascii_of_N 34 :: flat_map quote_char (list_ascii_of_string s) ++ [ascii_of_N 34]).

Fixpoint stringify (v : JSONValue) : string :=
  match v with
  | JNull => "null"
  | JBool true => "true"
  | JBool false => "false"
  | JNumber text => text
  | JString s => quote s
  | JArray items =>
      String.append "[" (String.append (String.concat "," (map stringify items)) "]")
  | JObject props =>
      String.append "{"
        (String.append
           (String.concat ","
              (map (fun p : string * JSONValue => let (n, w) := p in
                             String.append (quote n) (String.append ":" (stringify w)))
                 props))
           "}")
  end.

Definition is_ws (c : ascii) : bool :=
  let n := N_of_ascii c in
  ((n =? 32) || (n =? 9) || (n =? 10) || (n =? 13))%N.

Fixpoint skip_ws (cs : list ascii) : list ascii :=
  match cs with
  | c :: rest => if is_ws c then skip_ws rest else cs
  | [] => []
  end.

Definition hex_value (c : ascii) : option N :=
  let n := N_of_ascii c in
  if ((48 <=? n) && (n <=? 57))%N then Some (n - 48)%N
  else if ((97 <=? n) && (n <=? 102))%N then Some (n - 87)%N
  else if ((65 <=? n) && (n <=? 70))%N then Some (n - 55)%N
  else None.

Definition unescape (c : ascii) : option ascii :=
  let n := N_of_ascii c in
  if (n =? 34)%N then Some c
  else if (n =? 92)%N then Some c
  else if (n =? 47)%N then Some c
  else if (n =? 98)%N then Some (ascii_of_N 8)
  else if (n =? 102)%N then Some (ascii_of_N 12)
  else if (n =? 110)%N then Some (ascii_of_N 10)
  else if (n =? 114)%N then Some (ascii_of_N 13)
  else if (n =? 116)%N then Some (ascii_of_N 9)
  else None.

(** The characters of a string literal after its opening quote. *)
Fixpoint parse_string_chars (cs acc : list ascii) : option (string * list ascii) :=
  match cs with
  | [] => None
  | c :: rest =>
      if (N_of_ascii c =? 34)%N then Some (string_of_list_ascii (rev acc), rest)
      else if (N_of_ascii c =? 92)%N then
        match rest with
        | e :: rest1 =>
            if (N_of_ascii e =? 117)%N then
              match rest1 with
              | h1 :: h2 :: h3 :: h4 :: rest2 =>
                  match hex_value h1, hex_value h2, hex_value h3, hex_value h4 with
                  | Some a, Some b, Some c', Some d =>
                      let n := (((a * 16 + b) * 16 + c') * 16 + d)%N in
                      if (n <? 128)%N
                      then parse_string_chars rest2 (ascii_of_N n :: acc)
                      else None
                  | _, _, _, _ => None
                  end
              | _ => None
              end
            else
              match unescape e with
              | Some ch => parse_string_chars rest1 (ch :: acc)
              | None => None
              end
        | [] => None
        end
      else if (N_of_ascii c <? 32)%N then None
      else parse_string_chars rest (c :: acc)
  end.

Definition is_digit (c : ascii) : bool :=
  let n := N_of_ascii c in ((48 <=? n) && (n <=? 57))%N.

Fixpoint take_digits (cs : list ascii) : list ascii * list ascii :=
  match cs with
  | c :: rest =>
      if is_digit c then let (ds, r) := take_digits rest in (c :: ds, r)
      else ([], cs)
  | [] => ([], [])
  end.

(** The number grammar: [-? int frac? exp?]. *)
Definition parse_number (cs : list ascii) : option (string * list ascii) :=
  let (sign, cs1) :=
    match cs with
    | c :: rest => if (N_of_ascii c =? 45)%N then ([c], rest) else ([], cs)
    | [] => ([], cs)
    end in
  let (int, cs2) := take_digits cs1 in
  match int with
  | [] => None
  | d :: more =>
      if (N_of_ascii d =? 48)%N && negb (List.length more =? 0)%nat then None
      else
        let frac_part :=
          match cs2 with
          | c :: rest =>
              if (N_of_ascii c =? 46)%N then
                let (fs, r) := take_digits rest in
                match fs with
                | [] => None
                | _ => Some (c :: fs, r)
                end
              else Some ([], cs2)
          | [] => Some ([], cs2)
          end in
        match frac_part with
        | None => None
        | Some (frac, cs3) =>
            let exp_part :=
              match cs3 with
              | c :: rest =>
                  if ((N_of_ascii c =? 101) || (N_of_ascii c =? 69))%N then
                    let (sg, rest1) :=
                      match rest with
                      | s :: rest' =>
                          if ((N_of_ascii s =? 43) || (N_of_ascii s =? 45))%N
                          then ([s], rest') else ([], rest)
                      | [] => ([], rest)
                      end in
                    let (es, r) := take_digits rest1 in
                    match es with
                    | [] => None
                    | _ => Some (c :: sg ++ es, r)
                    end
                  else Some ([], cs3)
              | [] => Some ([], cs3)
              end in
            match exp_part with
            | None => None
            | Some (ex, cs4) =>
                Some (string_of_list_ascii (sign ++ int ++ frac ++ ex), cs4)
            end
        end
  end.

Fixpoint expect (word cs : list ascii) : option (list ascii) :=
  match word, cs with
  | [], _ => Some cs
  | w :: word', c :: rest => if Ascii.eqb w c then expect word' rest else None
  | _ :: _, [] => None
  end.

(** The items of an array after its opening bracket, [pv] parsing one
    value. *)
Fixpoint parse_items (pv : list ascii -> option (JSONValue * list ascii))
    (fuel : nat) (cs : list ascii) (acc : list JSONValue)
  : option (list JSONValue * list ascii) :=
  match fuel with
  | O => None
  | S fuel' =>
      match pv cs with
      | None => None
      | Some (v, rest) =>
          match skip_ws rest with
          | c :: rest' =>
              if (N_of_ascii c =? 44)%N then parse_items pv fuel' rest' (v :: acc)
              else if (N_of_ascii c =? 93)%N then Some (rev (v :: acc), rest')
              else None
          | [] => None
          end
      end
  end.

(** The members of an object after its opening brace; a repeated name
    keeps its place and takes the later value. *)
Fixpoint parse_members (pv : list ascii -> option (JSONValue * list ascii))
    (fuel : nat) (cs : list ascii) (acc : list (string * JSONValue))
  : option (list (string * JSONValue) * list ascii) :=
  match fuel with
  | O => None
  | S fuel' =>
      match skip_ws cs with
      | q :: rest =>
          if (N_of_ascii q =? 34)%N then
            match parse_string_chars rest [] with
            | None => None
            | Some (name, rest1) =>
                match skip_ws rest1 with
                | colon :: rest2 =>
                    if (N_of_ascii colon =? 58)%N then
                      match pv rest2 with
                      | None => None
                      | Some (v, rest3) =>
                          let acc' := obj_set name v acc in
                          match skip_ws rest3 with
                          | c :: rest4 =>
                              if (N_of_ascii c =? 44)%N
                              then parse_members pv fuel' rest4 acc'
                              else if (N_of_ascii c =? 125)%N then Some (acc', rest4)
                              else None
                          | [] => None
                          end
                      end
                    else None
                | [] => None
                end
            end
          else None
      | [] => None
      end
  end.

Fixpoint parse_value (fuel : nat) (cs : list ascii) : option (JSONValue * list ascii) :=
  match fuel with
  | O => None
  | S fuel' =>
      match skip_ws cs with
      | [] => None
      | c :: rest =>
          let n := N_of_ascii c in
          if (n =? 123)%N then
            match skip_ws rest with
            | c' :: rest' =>
                if (N_of_ascii c' =? 125)%N then Some (JObject [], rest')
                else
                  match parse_members (parse_value fuel') fuel' rest [] with
                  | Some (props, r) => Some (JObject props, r)
                  | None => None
                  end
            | [] => None
            end
          else if (n =? 91)%N then
            match skip_ws rest with
            | c' :: rest' =>
                if (N_of_ascii c' =? 93)%N then Some (JArray [], rest')
                else
                  match parse_items (parse_value fuel') fuel' rest [] with
                  | Some (items, r) => Some (JArray items, r)
                  | None => None
                  end
            | [] => None
            end
          else if (n =? 34)%N then
            match parse_string_chars rest [] with
            | Some (s, r) => Some (JString s, r)
            | None => None
            end
          else if (n =? 116)%N then
            option_map (pair (JBool true)) (expect (list_ascii_of_string "true") (c :: rest))
          else if (n =? 102)%N then
            option_map (pair (JBool false)) (expect (list_ascii_of_string "false") (c :: rest))
          else if (n =? 110)%N then
            option_map (pair JNull) (expect (list_ascii_of_string "null") (c :: rest))
          else
            match parse_number (c :: rest) with
            | Some (text, r) => Some (JNumber text, r)
            | None => None
            end
      end
  end.

Definition parse (text : string) : option JSONValue :=
  match parse_value (S (String.length text)) (list_ascii_of_string text) with
  | Some (v, rest) =>
      match skip_ws rest with
      | [] => Some v
      | _ :: _ => None
      end
  | None => None
  end.

End ReferenceJSON.

#[export] Instance reference_runtime : JSONRuntime :=
  {| JSON_parse := ReferenceJSON.parse; JSON_stringify := ReferenceJSON.stringify |}.

(** The two rules of Hono's serializer on the prefix of a cookie name, for a
    cookie set without [secure]; the scenarios run on them.  Names that Hono
    rejects on other grounds are not listed. *)
#[export] Instance prefix_rules : CookieSerializer :=
  {| serialize_error name :=
       if String.prefix "__Secure-" name
       then Some (Error "__Secure- Cookie must have Secure attributes")
       else if String.prefix "__Host-" name
            then Some (Error "__Host- Cookie must have Secure attributes")
            else None |}.

(** ** The properties, as the specification words them *)

(** "[f.length <= key.length] and every segment of [f] equals the
    corresponding segment of [key]". *)
Definition path_prefix (f k : list string) : Prop :=
  List.length f <= List.length k /\
  forall i, i < List.length f -> nth_error f i = nth_error k i.

(** [f] leaves [k] at some segment they both have. *)
Definition diverges (f k : list string) : Prop :=
  exists i, i < List.length f /\ i < List.length k /\ nth_error f i <> nth_error k i.

(** The paths of a filter: "a single segment string, a flat list of
    segments (interpreted as one multi-segment path), or a list of such
    paths"; "an empty input yields an empty list of paths". *)
Definition filter_paths (filters : FilterArg) : list (list string) :=
  match filters with
  | FKey (KString segment) => [[segment]]
  | FKey (KArray segments) => if decide (segments = []) then [] else [segments]
  | FNested paths => paths
  end.

(** "pick empty", "omit empty": nothing is given, be it the empty string,
    the empty list of segments or the empty list of paths. *)
Definition empty_filter (filters : FilterArg) : Prop :=
  match filters with
  | FKey (KString segment) => segment = ""
  | FKey (KArray segments) => segments = []
  | FNested paths => paths = []
  end.

(** "the value's key matches some path" of a filter, by prefix. *)
Definition matches_some (k : list string) (filters : FilterArg) : Prop :=
  exists f, In f (filter_paths filters) /\ path_prefix f k.

(** "(pick empty OR value matches some pick path) AND (omit empty OR value
    matches no omit path)". *)
Definition survives (pick omit : FilterArg) (fv : FlashValue) : Prop :=
  (empty_filter pick \/ matches_some (key fv) pick) /\
  (empty_filter omit \/ ~ matches_some (key fv) omit).

(** The string-valued entries of a submission. *)
Definition is_StringEntry (e : string * FormDataEntryValue) : bool :=
  match snd e with
  | StringEntry _ => true
  | FileEntry _ => false
  end.

Definition string_entries (x : FormData) : FormData := List.filter is_StringEntry x.

(** No string field of the submission bears a name that objects inherit. *)
Definition plain_names (x : FormData) : Prop :=
  forall e, In e (string_entries x) -> inherited (fst e) = false.

(** The cookie [commit] writes for a container. *)
Definition flash_cookie `{JSONRuntime} (name : string) (f : Flash) : SetCookie :=
  {| sc_name := name; sc_value := JSON_stringify (Flash_to_JSON f);
     sc_path := Some "/"; sc_maxAge := None |}.

(** The store with one more [Set-Cookie] header on its response. *)
Definition with_response_cookie (ck : SetCookie) (s : FlashStore.t) : FlashStore.t :=
  {| FlashStore.context :=
       {| req_method := req_method (FlashStore.context s);
          req_cookies := req_cookies (FlashStore.context s);
          req_formData := req_formData (FlashStore.context s);
          res_status := res_status (FlashStore.context s);
          res_cookies := res_cookies (FlashStore.context s) ++ [ck] |};
     FlashStore.cookieName := FlashStore.cookieName s;
     FlashStore.current := FlashStore.current s;
     FlashStore.next := FlashStore.next s |}.

(** The container of the basic scenario. *)
Definition too_short : Flash :=
  {| valid := true;
     values := [ {| key := ["ext"; "error"]; value := JString "too short" |} ] |}.

(** A JSON text whose value [isFlash] rejects: its flash value has a [key]
    that is no array. *)
Definition no_key_array : string :=
  Eval vm_compute in
    ReferenceJSON.stringify
      (JObject [("values", JArray [JObject [("key", JString "a"); ("value", JNull)]]);
                ("valid", JBool true)]).

(** A GET request without cookies or form data, and nothing yet in the
    response. *)
Definition bare_request : HonoContext :=
  {| req_method := "GET"; req_cookies := []; req_formData := None;
     res_status := 200; res_cookies := [] |}.

Definition request_with_cookie (name text : string) : HonoContext :=
  {| req_method := "GET"; req_cookies := [(name, text)]; req_formData := None;
     res_status := 200; res_cookies := [] |}.

(** The incoming cookie is absent (or empty), is not JSON, or is JSON that
    [isFlash] rejects. *)
Definition unusable_cookie `{JSONRuntime} (c : HonoContext) (name : string) : Prop :=
  falsy (getCookie c name) = true \/
  exists raw, getCookie c name = Some raw /\
    (JSON_parse raw = None \/
     exists parsed, JSON_parse raw = Some parsed /\ isFlash parsed = false).

(** A cookie that passes [isFlash] although its container is not valid. *)
Definition stale : Flash :=
  {| valid := false;
     values := [ {| key := ["ext"; "error"]; value := JString "stale" |} ] |}.

Definition stale_cookie : string :=
  Eval vm_compute in ReferenceJSON.stringify (Flash_to_JSON stale).

(** The cookie of a request that flashed [v] under the one-segment key that
    is the empty string. *)
Definition empty_key_cookie : string :=
  Eval vm_compute in
    ReferenceJSON.stringify
      (Flash_to_JSON {| valid := true;
                        values := [ {| key := ["ext"; ""]; value := JString "v" |} ] |}).


(** [reflash({pick})], the other options absent. *)
Definition pick_only (pick : FilterArg) : ReflashOptions :=
  {| opt_append := None; opt_omit := None; opt_pick := Some pick |}.

(** A store that has read the container [f] and has written nothing yet. *)
Definition store_reading (f : Flash) : FlashStore.t :=
  {| FlashStore.context := bare_request; FlashStore.cookieName := "flash";
     FlashStore.current := f; FlashStore.next := FlashStore.empty |}.

(** The entries of a [Record<string, string[]>], name by name: what the
    two loops of [deserializeFormData] append for a value of its declared
    type. *)
Definition record_entries (obj : list (string * list string)) : FormData :=
  flat_map (fun p => map (fun v => (fst p, StringEntry v)) (snd p)) obj.

(** The place of a new name among the names of a record, in property
    order: an array index goes before the first name that is not a smaller
    array index, any other name goes last. *)
Fixpoint insert_name (i : N) (name : string) (names : list string) : list string :=
  match names with
  | [] => [name]
  | n :: rest =>
      match array_index n with
      | Some j => if (j <? i)%N then n :: insert_name i name rest else name :: names
      | None => name :: names
      end
  end.

Definition add_name (names : list string) (name : string) : list string :=
  if existsb (String.eqb name) names then names
  else match array_index name with
       | Some i => insert_name i name names
       | None => names ++ [name]
       end.

(** The names of the string fields of a submission, each once, in the
    property order of the record that collects them. *)
Definition record_names (x : FormData) : list string :=
  fold_left (fun names e => add_name names (fst e)) (string_entries x) [].

(** The string fields of a submission grouped by name: name after name,
    under each name its values in the order of the submission. *)
Definition regrouped (x : FormData) : FormData :=
  flat_map (fun name => map (pair name) (FormData_getAll name (string_entries x)))
    (record_names x).

(** A submission whose fields alternate between two names, and one whose
    second field has an array-index name. *)
Definition alternating : FormData :=
  [("a", StringEntry "1"); ("b", StringEntry "2"); ("a", StringEntry "3")].

Definition index_named : FormData :=
  [("b", StringEntry "x"); ("1", StringEntry "y")].

Definition with_upload : FormData :=
  [("name", StringEntry "Alice"); ("photo", FileEntry "me.png");
   ("tags", StringEntry "a"); ("tags", StringEntry "b")].

(** ** input-props.ts

    The attribute objects of the form helpers.  [old(name) ?? defaultValue]
    keeps what [old] returns unless it is [undefined]. *)

Record TextInputProps : Type := mkTextInputProps {
  text_type : string;
  text_name : string;
  text_id : string;
  text_value : FormDataEntryValue
}.

Record CheckboxInputProps : Type := mkCheckboxInputProps {
  checkbox_type : string;
  checkbox_name : string;
  checkbox_id : string;
  checkbox_checked : bool
}.

Record CheckboxGroupInputProps : Type := mkCheckboxGroupInputProps {
  group_type : string;
  group_name : string;
  group_id : string;
  group_value : string;
  group_checked : bool
}.

Record SelectInputProps : Type := mkSelectInputProps {
  select_name : string;
  select_id : string
}.

Record SelectOptionProps : Type := mkSelectOptionProps {
  option_value : string;
  option_id : string;
  option_selected : bool
}.

Record TextareaProps : Type := mkTextareaProps {
  textarea_name : string;
  textarea_id : string;
  textarea_value : FormDataEntryValue
}.

Definition textInputProps (name : string) (defaultValue : option string)
    (scope : option FlashStore.t) : Completion TextInputProps :=
  do v <- old name scope;
  Normal {| text_type := "text"; text_name := name; text_id := name;
            text_value := default (StringEntry (default "" defaultValue)) v |}.

Definition checkboxInputProps (name : string) (defaultIsChecked : option bool)
    (scope : option FlashStore.t) : Completion CheckboxInputProps :=
  do checked <- oldChecked name scope;
  Normal {| checkbox_type := "checkbox"; checkbox_name := name; checkbox_id := name;
            checkbox_checked := default (default false defaultIsChecked) checked |}.

Definition checkboxGroupInputProps (name value : string) (defaultIsChecked : option bool)
    (scope : option FlashStore.t) : Completion CheckboxGroupInputProps :=
  do checked <- oldSelected name value scope;
  Normal {| group_type := "checkbox"; group_name := name;
            group_id := String.append name (String.append "-" value);
            group_value := value;
            group_checked := default (default false defaultIsChecked) checked |}.

Definition selectInputProps (name : string) : SelectInputProps :=
  {| select_name := name; select_id := name |}.

Definition selectOptionProps (name value : string) (defaultIsSelected : option bool)
    (scope : option FlashStore.t) : Completion SelectOptionProps :=
  do selected <- oldSelected name value scope;
  Normal {| option_value := value;
            option_id := String.append name (String.append "-option-" value);
            option_selected := default (default false defaultIsSelected) selected |}.

Definition textareaProps (name : string) (defaultValue : option string)
    (scope : option FlashStore.t) : Completion TextareaProps :=
  do v <- old name scope;
  Normal {| textarea_name := name; textarea_id := name;
            textarea_value := default (StringEntry (default "" defaultValue)) v |}.

(** ** mock-context.ts

    [MockContext]: a [Map] of headers, written by [header] and read through
    [req.raw.headers.get], which turns a missing or empty value into
    [null]. *)

Module MockContext.

Record t : Type := mk { headers : gmap string string }.

(** [new MockContext()]. *)
Definition new : t := {| headers := ∅ |}.

Definition header (name value : string) (m : t) : t :=
  {| headers := <[name := value]> (headers m) |}.

(** [req.raw.headers.get(name)]: [None] is [null]. *)
Definition get (name : string) (m : t) : option string :=
  match headers m !! name with
  | Some v => if String.eqb v "" then None else Some v
  | None => None
  end.

End MockContext.

(** ** Further properties, in the words of the code *)

(** A call of [reflash], and a call of [reflash] with [append: false]. *)
Definition is_reflash (c : StoreCall) : bool :=
  match c with
  | CallReflash _ => true
  | _ => false
  end.

Definition replaces (c : StoreCall) : bool :=
  match c with
  | CallReflash options => negb (default true (opt_append options))
  | _ => false
  end.

(** A value under the [ext] segment, where [flash] puts what the handler
    gives it. *)
Definition user_value (fv : FlashValue) : bool :=
  match key fv with
  | seg :: _ => String.eqb seg "ext"
  | [] => false
  end.

(** A value under one of the two keys the store writes: [ext] followed by
    the handler's key, or [inputs] alone. *)
Definition in_namespace (fv : FlashValue) : bool :=
  user_value fv || FlashStore.is_inputs_key (key fv).

(** The store with those values of [current] left out that [p] selects. *)
Definition without (p : FlashValue -> bool) (s : FlashStore.t) : FlashStore.t :=
  {| FlashStore.context := FlashStore.context s;
     FlashStore.cookieName := FlashStore.cookieName s;
     FlashStore.current :=
       {| values := List.filter (fun fv => negb (p fv)) (values (FlashStore.current s));
          valid := valid (FlashStore.current s) |};
     FlashStore.next := FlashStore.next s |}.

(** A value that has a text: it is no object with an own [toString]
    property, and no array that holds, at any depth of arrays, such an
    object. *)
Fixpoint stringable (v : JSONValue) : bool :=
  match v with
  | JArray items => forallb stringable items
  | JObject props =>
      match obj_get "toString" props with
      | Some _ => false
      | None => true
      end
  | _ => true
  end.

(** What the inner loop of [deserializeFormData] accepts as [data[key]]: an
    array of values that have a text, or a string. *)
Definition appendable (v : JSONValue) : bool :=
  match v with
  | JArray items => forallb stringable items
  | JString _ => true
  | _ => false
  end.

(** The store replays the string fields of the submission [x]: [getInputs]
    returns a form that has, under every name, the values [x] has. *)
Definition replays (x : FormData) (s : FlashStore.t) : Prop :=
  exists fd,
    FlashStore.getInputs s = Normal (Some fd) /\
    forall name, FormData_getAll name fd = FormData_getAll name (string_entries x).

(** The new name [name] becomes the last property of an object that has the
    properties [names]: it is no array index, or all of [names] are smaller
    array indices. *)
Definition appends_last (names : list string) (name : string) : bool :=
  match array_index name with
  | None => true
  | Some i =>
      forallb (fun n => match array_index n with
                        | Some j => (j <? i)%N
                        | None => false
                        end) names
  end.

(** The fields of [x] come in the order of a record: each field has the name
    of the field before it, or a name not seen before that becomes the last
    property.  [recent] holds the names seen, the latest first. *)
Fixpoint in_record_order (recent : list string) (x : FormData) : bool :=
  match x with
  | [] => true
  | e :: rest =>
      if match recent with
         | n :: _ => String.eqb n (fst e)
         | [] => false
         end
      then in_record_order recent rest
      else negb (existsb (String.eqb (fst e)) recent) &&
           appends_last recent (fst e) &&
           in_record_order (fst e :: recent) rest
  end.


(** A store whose [next] holds the queued values [queued] and whose
    [current] is [f]. *)
Definition store_with (f : Flash) (queued : list FlashValue) : FlashStore.t :=
  {| FlashStore.context := bare_request; FlashStore.cookieName := "flash";
     FlashStore.current := f;
     FlashStore.next := {| values := queued; valid := true |} |}.

(** A container with a snapshot of the submission [name=Alice]. *)
Definition alice_inputs : Flash :=
  {| valid := true;
     values := [ {| key := ["inputs"];
                    value := Record_to_JSON [("name", ["Alice"])] |} ] |}.

(** A POST request that submits [with_upload]. *)
Definition upload_request : HonoContext :=
  {| req_method := "POST"; req_cookies := []; req_formData := Some with_upload;
     res_status := 200; res_cookies := [] |}.

(** The name of the field is no array index. *)
Definition plain_order_name (e : string * FormDataEntryValue) : bool :=
  match array_index (fst e) with
  | Some _ => false
  | None => true
  end.

(** A submission of three fields under two names, the repeated name
    together, and the record of [with_upload]. *)
Definition two_tags : FormData :=
  [("name", StringEntry "Alice"); ("tags", StringEntry "a"); ("tags", StringEntry "b")].

Definition upload_record : list (string * list string) :=
  [("name", ["Alice"]); ("tags", ["a"; "b"])].

(** A store on [upload_request] that has read [alice_inputs]. *)
Definition upload_store : FlashStore.t :=
  {| FlashStore.context := upload_request; FlashStore.cookieName := "flash";
     FlashStore.current := alice_inputs; FlashStore.next := FlashStore.empty |}.

(** The submission [name=Alice]. *)
Definition alice : FormData := [("name", StringEntry "Alice")].

(** * Key paths: the matcher *)

Section KeyPathMatcher.

Lemma part_matches_nth (k : list string) (part : string) (i : nat) :
  part_matches k part i = true <-> nth_error k i = Some part.
Proof.
  unfold part_matches. split.
  - intros Hm. apply andb_true_iff in Hm as [_ Hm].
    destruct (nth_error k i) as [seg|]; [|discriminate].
    apply String.eqb_eq in Hm. now subst.
  - intros Hn. apply andb_true_iff. split.
    + apply Nat.ltb_lt. apply nth_error_Some. rewrite Hn. discriminate.
    + rewrite Hn. apply String.eqb_refl.
Qed.

(** Looking one segment further into a longer key. *)
Lemma every_from_cons (seg : string) (k f : list string) (i : nat) :
  every_from (part_matches (seg :: k)) (S i) f = every_from (part_matches k) i f.
Proof.
  revert i. induction f as [|part f IH]; intros i; simpl; [reflexivity|].
  rewrite IH. f_equal.
Qed.

Lemma every_nil_key (part : string) (f : list string) :
  every (part_matches []) (part :: f) = false.
Proof. reflexivity. Qed.

Lemma every_cons_cons (seg part : string) (k f : list string) :
  every (part_matches (seg :: k)) (part :: f) =
  String.eqb seg part && every (part_matches k) f.
Proof.
  unfold every. simpl. rewrite every_from_cons.
  unfold part_matches at 1. simpl. reflexivity.
Qed.

Lemma every_prefix (k f : list string) :
  every (part_matches k) f = true <-> f `prefix_of` k.
Proof.
  revert k. induction f as [|part f IH]; intros k.
  - split; [intros _; apply prefix_nil | reflexivity].
  - destruct k as [|seg k].
    + rewrite every_nil_key. split; [discriminate|].
      intros Hp. apply prefix_nil_inv in Hp. discriminate.
    + rewrite every_cons_cons, andb_true_iff, IH, String.eqb_eq. split.
      * intros [-> Hp]. now apply prefix_cons.
      * intros Hp. split.
        -- symmetry. now apply prefix_cons_inv_1 in Hp.
        -- now apply prefix_cons_inv_2 in Hp.
Qed.

Lemma path_prefix_iff (f k : list string) : path_prefix f k <-> f `prefix_of` k.
Proof.
  unfold path_prefix. split.
  - revert k. induction f as [|part f IH]; intros k [Hlen Hseg].
    + apply prefix_nil.
    + destruct k as [|seg k]; simpl in Hlen; [lia|].
      assert (part = seg) as ->.
      { specialize (Hseg 0 ltac:(simpl; lia)). simpl in Hseg. congruence. }
      apply prefix_cons, IH. split; [lia|].
      intros i Hi. apply (Hseg (S i)). simpl. lia.
  - intros [rest ->]. split.
    + rewrite length_app. lia.
    + intros i Hi. symmetry. now apply nth_error_app1.
Qed.

Lemma every_path_prefix (k f : list string) :
  every (part_matches k) f = true <-> path_prefix f k.
Proof. rewrite every_prefix. symmetry. apply path_prefix_iff. Qed.

(** A path that is no prefix is too long or leaves the key somewhere. *)
Lemma not_prefix_cases (f k : list string) :
  every (part_matches k) f = false <->
  List.length k < List.length f \/ diverges f k.
Proof.
  revert k. induction f as [|part f IH]; intros k.
  - split; [discriminate|]. intros [Hl | (i & Hi & _)]; simpl in *; lia.
  - destruct k as [|seg k].
    + rewrite every_nil_key. split; [|reflexivity].
      intros _. left. simpl. lia.
    + rewrite every_cons_cons, andb_false_iff, IH. split.
      * intros [Hne | [Hl | (i & Hf & Hk & Hd)]].
        -- right. exists 0. simpl. repeat split; try lia.
           intros [= ->]. rewrite String.eqb_refl in Hne. discriminate.
        -- left. simpl. lia.
        -- right. exists (S i). simpl. repeat split; try lia. exact Hd.
      * intros [Hl | (i & Hf & Hk & Hd)].
        -- right. left. simpl in Hl. lia.
        -- destruct i as [|i]; simpl in *.
           ++ left. apply String.eqb_neq. congruence.
           ++ right. right. exists i. repeat split; try lia. exact Hd.
Qed.

(** [normalizeFilters] yields the paths of the filter, and a filter has
    length 0 exactly when it is empty. *)
Lemma normalizeFilters_paths (filters : FilterArg) :
  normalizeFilters filters = filter_paths filters.
Proof. destruct filters as [[segment|[|segment segments]]|[|path paths]]; reflexivity. Qed.

Lemma filter_length_empty (filters : FilterArg) :
  filter_length filters = 0 <-> empty_filter filters.
Proof.
  destruct filters as [[segment|segments]|paths]; simpl.
  - destruct segment; simpl; split; (discriminate || reflexivity).
  - destruct segments; simpl; split; (discriminate || reflexivity).
  - destruct paths; simpl; split; (discriminate || reflexivity).
Qed.

Lemma checkKey_matches_some (k : list string) (filters : FilterArg) :
  checkKeyAgainstFilters k filters = true <-> matches_some k filters.
Proof.
  unfold checkKeyAgainstFilters, matches_some.
  rewrite normalizeFilters_paths, existsb_exists. split; intros (f & Hin & Hf); exists f; split; auto.
  - now apply every_path_prefix.
  - now apply every_path_prefix.
Qed.

End KeyPathMatcher.

(** C5 -- Prefix filter correctness.  Matching a key [k] against the single
    normalized filter [[f]] is true exactly when [f] is a prefix of [k]
    ([f] is no longer than [k] and agrees with it segment by segment), and
    false exactly when [f] is longer than [k] or leaves it at some segment;
    matching against several paths is the disjunction over the paths. *)
Theorem prefix_filter_correctness (k f : list string) (fs : list (list string)) :
  normalizeFilters (FNested [f]) = [f] /\
  (checkKeyAgainstFilters k (FNested [f]) = true <-> path_prefix f k) /\
  (checkKeyAgainstFilters k (FNested [f]) = false <->
     List.length k < List.length f \/ diverges f k) /\
  checkKeyAgainstFilters k (FNested fs) =
    existsb (fun f' => checkKeyAgainstFilters k (FNested [f'])) fs.
Proof.
  split; [reflexivity|].
  assert (Hone : forall f', checkKeyAgainstFilters k (FNested [f']) =
                            every (part_matches k) f').
  { intros f'. unfold checkKeyAgainstFilters. simpl. apply orb_false_r. }
  split; [rewrite Hone; apply every_path_prefix|].
  split; [rewrite Hone; apply not_prefix_cases|].
  unfold checkKeyAgainstFilters at 1.
  replace (normalizeFilters (FNested fs)) with fs by (now destruct fs).
  induction fs as [|f' fs IH]; simpl; [reflexivity|].
  now rewrite Hone, IH.
Qed.

(** * The store: carrying values forward *)

Section Reflash.

Lemma filter_sublist {A : Type} (p : A -> bool) (l : list A) :
  List.filter p l `sublist_of` l.
Proof.
  induction l as [|x l IH]; simpl.
  - constructor.
  - destruct (p x); now constructor.
Qed.

(** The callback of [filterFlashValues] decides [survives]. *)
Lemma filterFlashValues_keep (vs : list FlashValue) (pick omit : FilterArg) :
  exists keep : FlashValue -> bool,
    (forall fv, keep fv = true <-> survives pick omit fv) /\
    filterFlashValues vs pick omit = List.filter keep vs.
Proof.
  eexists. split; [|reflexivity].
  intros fv. cbv beta. unfold survives.
  rewrite <- !checkKey_matches_some, <- !filter_length_empty.
  destruct (Nat.ltb_spec 0 (filter_length pick)) as [Hpick|Hpick];
    destruct (Nat.ltb_spec 0 (filter_length omit)) as [Homit|Homit];
    destruct (checkKeyAgainstFilters (key fv) pick);
    destruct (checkKeyAgainstFilters (key fv) omit);
    simpl; intuition (first [lia | congruence]).
Qed.

Lemma filterFlashValues_In (vs : list FlashValue) (pick omit : FilterArg) (fv : FlashValue) :
  In fv (filterFlashValues vs pick omit) <-> In fv vs /\ survives pick omit fv.
Proof.
  destruct (filterFlashValues_keep vs pick omit) as (keep & Hkeep & ->).
  rewrite filter_In, Hkeep. reflexivity.
Qed.

(** Picking and then omitting is the same as doing both at once. *)
Lemma filterFlashValues_pick_then_omit (vs : list FlashValue) (pick omit : FilterArg) :
  filterFlashValues vs pick omit =
  filterFlashValues (filterFlashValues vs pick (FNested [])) (FNested []) omit.
Proof.
  unfold filterFlashValues. induction vs as [|fv vs IH]; simpl; [reflexivity|].
  destruct ((0 <? filter_length pick)%nat &&
            negb (checkKeyAgainstFilters (key fv) pick)); simpl; [exact IH|].
  destruct ((0 <? filter_length omit)%nat &&
            checkKeyAgainstFilters (key fv) omit); simpl; [exact IH|].
  now rewrite IH.
Qed.

Lemma reflash_next (options : ReflashOptions) (s : FlashStore.t) :
  FlashStore.next (FlashStore.reflash options s) =
  {| valid := true;
     values :=
       (if default true (opt_append options) then values (FlashStore.next s) else []) ++
       filterFlashValues (values (FlashStore.current s))
         (default (FNested []) (opt_pick options))
         (default (FNested []) (opt_omit options)) |}.
Proof.
  unfold FlashStore.reflash. destruct (default true (opt_append options)); reflexivity.
Qed.

End Reflash.

(** C4 -- Pick/omit precedence.  For every store and every call
    [reflash({pick, omit})], a value of [current.values] survives into the
    carried-forward subset exactly when (pick is empty or its key matches
    some pick path by prefix) and (omit is empty or its key matches no omit
    path by prefix); picking comes before omitting; the survivors keep their
    relative order and are not duplicated; and they are what [reflash] puts
    into [next]. *)
Theorem pick_omit_precedence (s : FlashStore.t) (options : ReflashOptions) :
  let pick := default (FNested []) (opt_pick options) in
  let omit := default (FNested []) (opt_omit options) in
  let carried := filterFlashValues (values (FlashStore.current s)) pick omit in
  (exists keep : FlashValue -> bool,
     (forall fv, keep fv = true <-> survives pick omit fv) /\
     carried = List.filter keep (values (FlashStore.current s))) /\
  (forall fv, In fv carried <->
              In fv (values (FlashStore.current s)) /\ survives pick omit fv) /\
  carried =
    filterFlashValues
      (filterFlashValues (values (FlashStore.current s)) pick (FNested []))
      (FNested []) omit /\
  carried `sublist_of` values (FlashStore.current s) /\
  FlashStore.next (FlashStore.reflash options s) =
    {| valid := true;
       values :=
         (if default true (opt_append options) then values (FlashStore.next s) else []) ++
         carried |}.
Proof.
  cbv zeta. split; [apply filterFlashValues_keep|].
  split; [intros fv; apply filterFlashValues_In|].
  split; [apply filterFlashValues_pick_then_omit|].
  split; [apply filter_sublist|].
  apply reflash_next.
Qed.

(** The empty string counts as an empty pick: it has length 0, so nothing
    is filtered, although its normal form is the one path [[""]]. *)
Example pick_empty_string (vs : list FlashValue) :
  normalizeFilters (FKey (KString "")) = [[""]] /\
  filterFlashValues vs (FKey (KString "")) (FNested []) = vs.
Proof.
  split; [reflexivity|]. unfold filterFlashValues. simpl.
  induction vs as [|fv vs IH]; simpl; [reflexivity | now rewrite IH].
Qed.

(** * The store: commit *)

Section Commit.
Context `{JSONRuntime}.

Lemma commit_invalid (s : FlashStore.t) :
  valid (FlashStore.next s) = false -> FlashStore.commit s = s.
Proof. intros Hv. unfold FlashStore.commit. now rewrite Hv. Qed.

Lemma commit_valid (s : FlashStore.t) :
  valid (FlashStore.next s) = true ->
  FlashStore.commit s =
  with_response_cookie (flash_cookie (FlashStore.cookieName s) (FlashStore.next s)) s.
Proof. intros Hv. unfold FlashStore.commit. now rewrite Hv. Qed.

(** Every call that writes leaves [next] valid, and no call makes a valid
    [next] invalid. *)
Lemma call_keeps_valid (c : StoreCall) (s : FlashStore.t) :
  valid (FlashStore.next s) = true -> valid (FlashStore.next (call c s)) = true.
Proof.
  intros Hv. destruct c as [k v| | |f|options]; simpl; try assumption.
  - reflexivity.
  - unfold FlashStore.flashInputs.
    destruct (FlashStore.formData (FlashStore.context s)) as [fd|e]; simpl; [|assumption].
    destruct (serializeFormData fd) as [obj|e]; simpl; [reflexivity | assumption].
  - now rewrite reflash_next.
Qed.

Lemma calls_keep_valid (cs : list StoreCall) (s : FlashStore.t) :
  valid (FlashStore.next s) = true -> valid (FlashStore.next (calls cs s)) = true.
Proof.
  revert s. induction cs as [|c cs IH]; intros s Hv; simpl; [assumption|].
  apply IH. now apply call_keeps_valid.
Qed.

End Commit.

(** C6 -- Commit gating.  [commit()] leaves the store and the response as
    they are when [next.valid] is false; when [next.valid] is true it appends
    exactly one cookie to the response, whose value is the JSON
    serialization of [next], and changes nothing else. *)
Theorem commit_gating `{JSONRuntime} (s : FlashStore.t) :
  FlashStore.commit s =
    (if valid (FlashStore.next s)
     then with_response_cookie
            (flash_cookie (FlashStore.cookieName s) (FlashStore.next s)) s
     else s) /\
  res_cookies (FlashStore.context (FlashStore.commit s)) =
    res_cookies (FlashStore.context s) ++
    (if valid (FlashStore.next s)
     then [ {| sc_name := FlashStore.cookieName s;
               sc_value := JSON_stringify (Flash_to_JSON (FlashStore.next s));
               sc_path := Some "/"; sc_maxAge := None |} ]
     else []).
Proof.
  destruct (valid (FlashStore.next s)) eqn:Hv.
  - rewrite (commit_valid s Hv). split; reflexivity.
  - rewrite (commit_invalid s Hv). split; [reflexivity|].
    now rewrite app_nil_r.
Qed.

(** C10 -- Every [reflash(options)] makes [next] valid, whatever [current]
    holds and whatever is carried forward; so a [commit()] that follows a
    reflash (and any further calls on the store) always writes a cookie: on
    a store read from a request without cookie, one that encodes
    [{valid: true, values: []}]. *)
Theorem reflash_always_commits `{JSONRuntime}
    (s : FlashStore.t) (options : ReflashOptions) (later : list StoreCall) :
  let s' := calls later (FlashStore.reflash options s) in
  valid (FlashStore.next (FlashStore.reflash options s)) = true /\
  valid (FlashStore.next s') = true /\
  res_cookies (FlashStore.context (FlashStore.commit s')) =
    res_cookies (FlashStore.context s') ++
    [flash_cookie (FlashStore.cookieName s') (FlashStore.next s')] /\
  exists s0,
    FlashStore.new bare_request "flash" = Normal s0 /\
    valid (FlashStore.current s0) = false /\
    res_cookies (FlashStore.context (FlashStore.commit (FlashStore.reflash options s0))) =
      res_cookies (FlashStore.context s0) ++
      [flash_cookie "flash" {| values := []; valid := true |}].
Proof.
  cbv zeta.
  assert (Hr : forall st, valid (FlashStore.next (FlashStore.reflash options st)) = true).
  { intros st. now rewrite reflash_next. }
  split; [apply Hr|].
  assert (Hv := calls_keep_valid later _ (Hr s)).
  split; [exact Hv|].
  split; [now rewrite (commit_valid _ Hv)|].
  eexists. split; [reflexivity|]. split; [reflexivity|].
  rewrite (commit_valid _ (Hr _)).
  unfold with_response_cookie, flash_cookie, FlashStore.reflash.
  destruct (default true (opt_append options)); reflexivity.
Qed.

(** * The store: reading the incoming cookie *)

Section Initialize.
Context `{JSONRuntime}.

(** Past [deleteCookie], the constructor returns a store on every
    request. *)
Lemma new_total (c : HonoContext) (name : string) :
  exists s, FlashStore.new c name = Normal s /\
    FlashStore.cookieName s = name /\
    FlashStore.next s = FlashStore.empty /\
    FlashStore.context s = snd (deleteCookie c name).
Proof.
  unfold FlashStore.new, FlashStore.initialize. simpl.
  destruct (getCookie c name) as [raw|]; simpl; [|eexists; repeat split].
  destruct (String.eqb raw ""); simpl; [eexists; repeat split|].
  unfold FlashStore.parse.
  destruct (JSON_parse raw) as [parsed|]; simpl.
  - destruct (isFlash parsed); simpl; eexists; repeat split.
  - eexists; repeat split.
Qed.

Lemma new_unusable (c : HonoContext) (name : string) (s : FlashStore.t) :
  FlashStore.new c name = Normal s ->
  unusable_cookie c name ->
  FlashStore.current s = FlashStore.empty.
Proof.
  unfold FlashStore.new, FlashStore.initialize. simpl.
  intros Hnew [Hfalsy | (raw & Hraw & Hbad)].
  - destruct (getCookie c name) as [raw|]; simpl in *.
    + rewrite Hfalsy in Hnew. simpl in Hnew. now inversion Hnew.
    + now inversion Hnew.
  - rewrite Hraw in Hnew. simpl in Hnew.
    destruct (String.eqb raw ""); simpl in Hnew; [now inversion Hnew|].
    unfold FlashStore.parse in Hnew.
    destruct Hbad as [Hparse | (parsed & Hparse & Hschema)];
      rewrite Hparse in Hnew; simpl in Hnew.
    + now inversion Hnew.
    + rewrite Hschema in Hnew. simpl in Hnew. now inversion Hnew.
Qed.

(** A cookie that parses to a container is what the store reads. *)
Lemma new_usable (c : HonoContext) (name raw : string) (parsed : JSONValue) :
  getCookie c name = Some raw ->
  raw <> "" ->
  JSON_parse raw = Some parsed ->
  isFlash parsed = true ->
  exists s, FlashStore.new c name = Normal s /\
    FlashStore.current s = as_Flash parsed.
Proof.
  intros Hraw Hne Hparse Hschema.
  unfold FlashStore.new, FlashStore.initialize. simpl.
  rewrite Hraw. simpl.
  destruct (String.eqb_spec raw ""); [contradiction|].
  unfold FlashStore.parse. rewrite Hparse. simpl. rewrite Hschema. simpl.
  eexists. split; reflexivity.
Qed.

(** The constructor under the serializer's check. *)
Lemma construct_rejected `{CookieSerializer} (c : HonoContext) (name : string)
    (e : JSError) :
  serialize_error name = Some e -> FlashStore.construct c name = Throw e.
Proof.
  intros Hname. unfold FlashStore.construct, Hono_deleteCookie, Hono_setCookie.
  now rewrite Hname.
Qed.

Lemma construct_accepted `{CookieSerializer} (c : HonoContext) (name : string) :
  serialize_error name = None -> FlashStore.construct c name = FlashStore.new c name.
Proof.
  intros Hname. unfold FlashStore.construct, Hono_deleteCookie, Hono_setCookie.
  now rewrite Hname.
Qed.

Lemma construct_returns `{CookieSerializer} (c : HonoContext) (name : string)
    (s : FlashStore.t) :
  FlashStore.construct c name = Normal s ->
  serialize_error name = None /\ FlashStore.new c name = Normal s.
Proof.
  unfold FlashStore.construct, Hono_deleteCookie, Hono_setCookie.
  destruct (serialize_error name); simpl; [discriminate | auto].
Qed.

(** What the store writes, the schema check accepts and the cast reads
    back. *)
Lemma as_FlashValue_to_JSON (fv : FlashValue) :
  as_FlashValue (FlashValue_to_JSON fv) = fv.
Proof.
  destruct fv as [k v]. unfold as_FlashValue, FlashValue_to_JSON. simpl.
  f_equal. induction k as [|seg k IH]; simpl; [reflexivity | now rewrite IH].
Qed.

Lemma isFlashValue_to_JSON (fv : FlashValue) :
  isFlashValue (FlashValue_to_JSON fv) = true.
Proof.
  destruct fv as [k v]. unfold isFlashValue, FlashValue_to_JSON. simpl.
  replace (forallb is_JString (map JString k)) with true; [reflexivity|].
  symmetry. induction k as [|seg k IH]; simpl; [reflexivity | exact IH].
Qed.

Lemma as_Flash_to_JSON (f : Flash) : as_Flash (Flash_to_JSON f) = f.
Proof.
  destruct f as [vs b]. unfold as_Flash, Flash_to_JSON. simpl. f_equal.
  rewrite map_map. rewrite (map_ext _ (fun fv => fv) as_FlashValue_to_JSON).
  apply map_id.
Qed.

Lemma isFlash_to_JSON (f : Flash) : isFlash (Flash_to_JSON f) = true.
Proof.
  destruct f as [vs b]. unfold isFlash, Flash_to_JSON. simpl.
  replace (forallb isFlashValue (map FlashValue_to_JSON vs)) with true; [reflexivity|].
  symmetry. apply forallb_forall. intros v Hin.
  apply in_map_iff in Hin as (fv & <- & _). apply isFlashValue_to_JSON.
Qed.

(** The [next] that one request commits is the [current] of the request
    that brings the cookie back, on a runtime that parses what it has
    serialized. *)
Lemma committed_cookie_is_read (f : Flash) (c : HonoContext) (name : string) :
  JSON_parse (JSON_stringify (Flash_to_JSON f)) = Some (Flash_to_JSON f) ->
  JSON_stringify (Flash_to_JSON f) <> "" ->
  getCookie c name = Some (JSON_stringify (Flash_to_JSON f)) ->
  exists s, FlashStore.new c name = Normal s /\ FlashStore.current s = f.
Proof.
  intros Hcodec Hne Hcookie.
  destruct (new_usable c name _ _ Hcookie Hne Hcodec (isFlash_to_JSON f))
    as (s & Hnew & Hcur).
  exists s. split; [exact Hnew|]. now rewrite Hcur, as_Flash_to_JSON.
Qed.

End Initialize.

(** C7 -- The constructor throws exactly when Hono's serializer rejects the
    cookie name, whatever the request's cookie holds: [deleteCookie] stands
    outside the [try].  For a name the serializer accepts it returns a store
    on every request, and a store initialized from an absent cookie, an
    empty cookie, a cookie that is not JSON, or a cookie whose JSON fails
    the [Flash] schema check has [current = {valid: false, values: []}],
    which [get()] without filter returns. *)
Theorem malformed_cookie_recovers `{JSONRuntime} `{CookieSerializer}
    (c : HonoContext) (name : string) :
  (forall e, serialize_error name = Some e -> FlashStore.construct c name = Throw e) /\
  (forall e, FlashStore.construct c name = Throw e -> serialize_error name = Some e) /\
  (serialize_error name = None ->
   exists s,
     FlashStore.construct c name = Normal s /\
     (unusable_cookie c name ->
      FlashStore.current s = {| values := []; valid := false |} /\
      FlashStore.get None s = WholeFlash {| values := []; valid := false |})).
Proof.
  split; [intros e; apply construct_rejected|]. split.
  - intros e Hthrow. destruct (serialize_error name) as [e'|] eqn:Hname.
    + rewrite (construct_rejected c name e' Hname) in Hthrow. congruence.
    + rewrite (construct_accepted c name Hname) in Hthrow.
      destruct (new_total c name) as (s & Hnew & _). congruence.
  - intros Hname. rewrite (construct_accepted c name Hname).
    destruct (new_total c name) as (s & Hnew & _).
    exists s. split; [exact Hnew|].
    intros Hbad. assert (Hcur := new_unusable c name s Hnew Hbad).
    split; [exact Hcur|]. simpl. now rewrite Hcur.
Qed.

(** The three kinds of unusable cookie, on the reference runtime and under
    the cookie name [flash]. *)
Lemma malformed_cookie_recovers_witness :
  serialize_error "flash" = None /\
  (unusable_cookie bare_request "flash" /\
   exists s, FlashStore.construct bare_request "flash" = Normal s /\
     FlashStore.get None s = WholeFlash {| values := []; valid := false |}) /\
  (unusable_cookie (request_with_cookie "flash" "{not json") "flash" /\
   exists s,
     FlashStore.construct (request_with_cookie "flash" "{not json") "flash" = Normal s /\
     FlashStore.get None s = WholeFlash {| values := []; valid := false |}) /\
  (unusable_cookie (request_with_cookie "flash" no_key_array) "flash" /\
   exists s,
     FlashStore.construct (request_with_cookie "flash" no_key_array) "flash" = Normal s /\
     FlashStore.get None s = WholeFlash {| values := []; valid := false |}).
Proof.
  assert (H0 : serialize_error "flash" = None) by reflexivity.
  assert (H1 : unusable_cookie bare_request "flash") by (left; reflexivity).
  assert (H2 : unusable_cookie (request_with_cookie "flash" "{not json") "flash").
  { right. eexists. split; [reflexivity|]. left. reflexivity. }
  assert (H3 : unusable_cookie
                 (request_with_cookie "flash" no_key_array)
                 "flash").
  { right. eexists. split; [reflexivity|]. right.
    eexists. split; [vm_compute; reflexivity | reflexivity]. }
  split; [exact H0|]. split; [|split].
  - split; [exact H1|].
    destruct (proj2 (proj2 (malformed_cookie_recovers bare_request "flash")) H0)
      as (s & Hs & Hrec).
    exists s. split; [exact Hs | exact (proj2 (Hrec H1))].
  - split; [exact H2|].
    destruct (proj2 (proj2 (malformed_cookie_recovers
                              (request_with_cookie "flash" "{not json") "flash")) H0)
      as (s & Hs & Hrec).
    exists s. split; [exact Hs | exact (proj2 (Hrec H2))].
  - split; [exact H3|].
    destruct (proj2 (proj2 (malformed_cookie_recovers
                              (request_with_cookie "flash" no_key_array) "flash")) H0)
      as (s & Hs & Hrec).
    exists s. split; [exact Hs | exact (proj2 (Hrec H3))].
Defined.

(** C7, as stated, fails for a cookie name that Hono's serializer rejects:
    with [honold({ cookieName: "__Secure-flash" })] the constructor throws
    on a request that brings no cookie at all, and what it throws is no
    [SyntaxError] of the cookie's text but the serializer's [Error]. *)
Lemma initialization_surfaces_error :
  exists e,
    unusable_cookie bare_request "__Secure-flash" /\
    FlashStore.construct bare_request "__Secure-flash" = Throw e /\
    e = Error "__Secure- Cookie must have Secure attributes" /\
    FlashStore.construct bare_request "__Secure-flash" <>
      Normal {| FlashStore.context := snd (deleteCookie bare_request "__Secure-flash");
                FlashStore.cookieName := "__Secure-flash";
                FlashStore.current := {| values := []; valid := false |};
                FlashStore.next := {| values := []; valid := false |} |}.
Proof.
  eexists. split; [left; reflexivity|]. split; [reflexivity|]. split; [reflexivity|].
  discriminate.
Qed.

(** * The store: reading in the request that wrote *)

Section Reads.

(** [flash] writes to [next] only. *)
Lemma flash_current (k : KeyArg) (v : JSONValue) (s : FlashStore.t) :
  FlashStore.current (FlashStore.flash k v s) = FlashStore.current s.
Proof. reflexivity. Qed.

(** [get] with a filter looks at [current.values] only: not at [next], and
    not at [current.valid]. *)
Lemma get_values_only (k : KeyArg) (s s' : FlashStore.t) :
  values (FlashStore.current s) = values (FlashStore.current s') ->
  FlashStore.get (Some k) s = FlashStore.get (Some k) s'.
Proof. intros Hv. simpl. now rewrite Hv. Qed.

Lemma get_no_values (k : KeyArg) (s : FlashStore.t) :
  values (FlashStore.current s) = [] ->
  FlashStore.get (Some k) s = MatchingValues [].
Proof. intros Hv. simpl. now rewrite Hv. Qed.

(** [getInputs] is gated on [current.valid]. *)
Lemma getInputs_invalid (s : FlashStore.t) :
  valid (FlashStore.current s) = false -> FlashStore.getInputs s = Normal None.
Proof. intros Hv. unfold FlashStore.getInputs. now rewrite Hv. Qed.


End Reads.

(** C1, as the code has it -- Starting from a store initialized with no
    incoming cookie, after [flash("error", "too short")] a call to
    [get("error")] in the same request returns the empty list: the value is
    written to [next], and [get] reads [current].  [commit()] then writes
    one cookie, whose value decodes to
    [{valid: true, values: [{key: ["ext","error"], value: "too short"}]}]
    on a runtime whose [JSON.parse] reads back what its [JSON.stringify]
    wrote for this container.  *)
Theorem basic_flash_scenario `{JSONRuntime} (c : HonoContext) (name : string)
    (Hno : getCookie c name = None)
    (Hcodec : JSON_parse (JSON_stringify (Flash_to_JSON too_short)) =
              Some (Flash_to_JSON too_short)) :
  exists s0,
    FlashStore.new c name = Normal s0 /\
    let s1 := FlashStore.flash (KString "error") (JString "too short") s0 in
    FlashStore.get (Some (KString "error")) s1 = MatchingValues [] /\
    exists text parsed,
      res_cookies (FlashStore.context (FlashStore.commit s1)) =
        res_cookies (FlashStore.context s1) ++
        [ {| sc_name := name; sc_value := text;
             sc_path := Some "/"; sc_maxAge := None |} ] /\
      JSON_parse text = Some parsed /\
      isFlash parsed = true /\
      as_Flash parsed = too_short.
Proof.
  destruct (new_total c name) as (s0 & Hnew & Hname & Hnext & _).
  assert (Hcur : FlashStore.current s0 = FlashStore.empty).
  { apply (new_unusable c name s0 Hnew). left. now rewrite Hno. }
  exists s0. split; [exact Hnew|]. cbv zeta. split.
  - apply get_no_values. rewrite flash_current, Hcur. reflexivity.
  - exists (JSON_stringify (Flash_to_JSON too_short)), (Flash_to_JSON too_short).
    split; [|split; [exact Hcodec | split; [apply isFlash_to_JSON | apply as_Flash_to_JSON]]].
    rewrite commit_valid by reflexivity.
    unfold with_response_cookie, flash_cookie. simpl.
    rewrite Hnext, Hname. reflexivity.
Qed.

(** The scenario on a request without cookies, run on the reference
    runtime. *)
Lemma basic_flash_scenario_witness :
  getCookie bare_request "flash" = None /\
  exists s0,
    FlashStore.new bare_request "flash" = Normal s0 /\
    FlashStore.get (Some (KString "error"))
      (FlashStore.flash (KString "error") (JString "too short") s0) = MatchingValues [].
Proof.
  split; [reflexivity|].
  assert (Hcodec : JSON_parse (JSON_stringify (Flash_to_JSON too_short)) =
                   Some (Flash_to_JSON too_short)) by (vm_compute; reflexivity).
  destruct (basic_flash_scenario bare_request "flash" eq_refl Hcodec)
    as (s0 & Hnew & Hget & _).
  exists s0. split; [exact Hnew | exact Hget].
Defined.

(** C1, as the specification states it, fails: in the request that flashed
    it, [get("error")] does not return ["too short"]. *)
Lemma basic_flash_scenario_same_request :
  exists s0,
    FlashStore.new bare_request "flash" = Normal s0 /\
    FlashStore.get (Some (KString "error"))
      (FlashStore.flash (KString "error") (JString "too short") s0) = MatchingValues [] /\
    MatchingValues [] <> MatchingValues [JString "too short"].
Proof.
  eexists. split; [reflexivity|]. split; [reflexivity | discriminate].
Qed.

(** C2, at the input where the code leaves it -- a request whose cookie
    holds [{valid: false, values: [{key: ["ext","error"], value: "stale"}]}]:
    the cookie passes [isFlash], [current.valid] is false, [getInputs()]
    returns no value, and [get("error")] returns the stored value
    nevertheless. *)
Theorem invalid_container_is_read :
  exists s,
    FlashStore.new (request_with_cookie "flash" stale_cookie) "flash" = Normal s /\
    FlashStore.current s = stale /\
    valid (FlashStore.current s) = false /\
    FlashStore.getInputs s = Normal None /\
    FlashStore.get (Some (KString "error")) s = MatchingValues [JString "stale"].
Proof.
  eexists. split; [vm_compute; reflexivity|]. repeat split.
Qed.

(** * Picking by the key a value was flashed under *)

Section PickByFlashKey.





End PickByFlashKey.




(** The empty string as a pick has length 0 as well, and [reflash] takes it
    for no pick at all, whereas [normalizeFilters] and [get] take it for a
    segment: the value flashed by [flash("", "v")] is stored under
    [["ext", ""]], and the next request's [reflash({pick: ""})] carries it
    forward. *)
Lemma reflash_pick_empty_key :
  exists s1 s2,
    FlashStore.new bare_request "flash" = Normal s1 /\
    map sc_value
      (res_cookies
         (FlashStore.context
            (FlashStore.commit (FlashStore.flash (KString "") (JString "v") s1)))) =
      [""; empty_key_cookie] /\
    FlashStore.new (request_with_cookie "flash" empty_key_cookie) "flash" = Normal s2 /\
    values (FlashStore.current s2) =
      [ {| key := "ext" :: flat_key (KString ""); value := JString "v" |} ] /\
    values (FlashStore.next (FlashStore.reflash (pick_only (FKey (KString ""))) s2)) =
      [ {| key := "ext" :: flat_key (KString ""); value := JString "v" |} ] /\
    head (flat_key (KString "")) = Some "" /\
    head (flat_key (KString "")) <> Some "ext".
Proof.
  eexists. eexists.
  split; [reflexivity|].
  split; [vm_compute; reflexivity|].
  split; [vm_compute; reflexivity|].
  split; [reflexivity|].
  split; [reflexivity|].
  split; [reflexivity | discriminate].
Qed.

(** * The request scope *)

Section Scope.

(** What the codec can throw is a [TypeError]. *)
Lemma serialize_entries_throws (es : FormData) (obj : list (string * list string))
    (e : JSError) :
  serialize_entries es obj = Throw e -> exists m, e = TypeError m.
Proof.
  revert obj. induction es as [|[name entry] es IH]; intros obj; simpl; [discriminate|].
  unfold serialize_entry. simpl.
  destruct entry as [str|file]; simpl; [|apply IH].
  destruct (obj_get name _) as [arr|]; simpl; [apply IH|].
  intros [= <-]. eauto.
Qed.

(** Induction on a JSON value, with the items of an array and the
    properties of an object as smaller values. *)
Lemma JSONValue_induction (P : JSONValue -> Prop)
    (HNull : P JNull) (HBool : forall b, P (JBool b))
    (HNumber : forall text, P (JNumber text)) (HString : forall s, P (JString s))
    (HArray : forall items, Forall P items -> P (JArray items))
    (HObject : forall props, Forall (fun p => P (snd p)) props -> P (JObject props)) :
  forall v, P v.
Proof.
  exact (fix go (v : JSONValue) : P v :=
    match v with
    | JNull => HNull
    | JBool b => HBool b
    | JNumber text => HNumber text
    | JString s => HString s
    | JArray items =>
        HArray items
          ((fix all (l : list JSONValue) : Forall P l :=
              match l with
              | [] => List.Forall_nil P
              | x :: rest => @List.Forall_cons _ P x rest (go x) (all rest)
              end) items)
    | JObject props =>
        HObject props
          ((fix all (l : list (string * JSONValue)) : Forall (fun p => P (snd p)) l :=
              match l with
              | [] => List.Forall_nil _
              | x :: rest => @List.Forall_cons _ (fun p => P (snd p)) x rest (go (snd x)) (all rest)
              end) props)
    end).
Qed.

Lemma js_ToString_throws (v : JSONValue) (e : JSError) :
  js_ToString v = Throw e -> exists m, e = TypeError m.
Proof.
  revert e. induction v as [| [|] | text | s | items IH | props _] using JSONValue_induction;
    intros e; simpl; try discriminate.
  - match goal with |- bind (?join items) _ = _ -> _ => set (J := join) end.
    assert (Hjoin : forall e', J items = Throw e' -> exists m, e' = TypeError m).
    { clear e. induction IH as [|x items Hx _ IHl]; intros e'; simpl; [discriminate|].
      destruct (match x with JNull => Normal "" | _ => js_ToString x end)
        as [t|err] eqn:Hhead; simpl.
      - destruct (J items) as [ts|err] eqn:Hrest; simpl; [discriminate|].
        intros [= <-]. now apply IHl.
      - intros [= <-]. destruct x; try discriminate; now apply Hx. }
    destruct (J items) as [ts|err] eqn:HJ; simpl; [discriminate|].
    intros [= <-]. now apply Hjoin.
  - destruct (obj_get "toString" props); [|discriminate]. intros [= <-]. eauto.
Qed.

Lemma append_values_of_throws (name : string) (vs : list JSONValue) (fd : FormData)
    (e : JSError) :
  append_values_of name vs fd = Throw e -> exists m, e = TypeError m.
Proof.
  revert fd. induction vs as [|w vs IH]; intros fd; simpl; [discriminate|].
  destruct (js_ToString w) as [text|err] eqn:Hw; simpl; [apply IH|].
  intros [= <-]. now apply js_ToString_throws in Hw.
Qed.

Lemma deserialize_props_throws (props : list (string * JSONValue)) (fd : FormData)
    (e : JSError) :
  deserialize_props props fd = Throw e -> exists m, e = TypeError m.
Proof.
  revert fd. induction props as [|[name v] props IH]; intros fd; simpl; [discriminate|].
  destruct (for_of v) as [vs|err] eqn:Hof; simpl.
  - destruct (append_values_of name vs fd) as [fd'|err] eqn:Happ; simpl; [apply IH|].
    intros [= <-]. now apply append_values_of_throws in Happ.
  - intros [= <-]. destruct v; simpl in Hof; try discriminate;
      injection Hof as <-; eauto.
Qed.

Lemma store_flashInputs_throws (s : FlashStore.t) (e : JSError) :
  FlashStore.flashInputs s = Throw e -> exists m, e = TypeError m.
Proof.
  unfold FlashStore.flashInputs, FlashStore.formData.
  destruct (req_formData (FlashStore.context s)) as [fd|]; simpl.
  - destruct (serializeFormData fd) as [obj|err] eqn:Hser; simpl; [discriminate|].
    intros [= <-]. now apply serialize_entries_throws in Hser.
  - intros [= <-]. eauto.
Qed.

Lemma store_getInputs_throws (s : FlashStore.t) (e : JSError) :
  FlashStore.getInputs s = Throw e -> exists m, e = TypeError m.
Proof.
  unfold FlashStore.getInputs.
  destruct (negb (valid (FlashStore.current s))); [discriminate|].
  destruct (find _ _) as [inputValues|]; [|discriminate].
  unfold deserializeFormData.
  destruct (deserialize_props _ _) as [fd|err] eqn:Hde; simpl; [discriminate|].
  intros [= <-]. now apply deserialize_props_throws in Hde.
Qed.

Lemma not_scope_error (e : JSError) : (exists m, e = TypeError m) -> e <> scope_error.
Proof. intros [m ->]. discriminate. Qed.

(** A function that starts with [getFlashStore()] and whose remaining work,
    on the store, does not throw the scope error. *)
Lemma scoped_call {A : Type} (body : FlashStore.t -> Completion A)
    (scope : option FlashStore.t) :
  (forall store, body store <> Throw scope_error) ->
  (do store <- getFlashStore scope; body store) = Throw scope_error <-> scope = None.
Proof.
  intros Hbody. destruct scope as [store|]; simpl.
  - split; [intros Hthrow; now apply Hbody in Hthrow | discriminate].
  - split; reflexivity.
Qed.

Lemma after_getInputs {A : Type} (k : option FormData -> Completion A)
    (store : FlashStore.t) :
  (forall fd, k fd <> Throw scope_error) ->
  (do fd <- FlashStore.getInputs store; k fd) <> Throw scope_error.
Proof.
  intros Hk.
  destruct (FlashStore.getInputs store) as [fd|e] eqn:Hget; simpl; [apply Hk|].
  intros [= ->]. apply store_getInputs_throws in Hget. now apply not_scope_error in Hget.
Qed.

End Scope.

(** C8 -- [getFlashStore()] throws exactly when no store is bound in the
    request scope, and what it throws is the scope error; with a store bound
    it returns that store.  Each function of the programmatic surface
    ([flash], [flashInputs], [getFlash], [reflash], [old], [oldChecked],
    [oldSelected]) throws the scope error exactly when no store is bound. *)
Theorem scope_violation (scope : option FlashStore.t) :
  ((exists e, getFlashStore scope = Throw e) <-> scope = None) /\
  (getFlashStore scope = Throw scope_error <-> scope = None) /\
  (forall store, getFlashStore (Some store) = Normal store) /\
  (forall k v, flash k v scope = Throw scope_error <-> scope = None) /\
  (flashInputs scope = Throw scope_error <-> scope = None) /\
  (forall filters, getFlash filters scope = Throw scope_error <-> scope = None) /\
  (forall append pick except,
     reflash append pick except scope = Throw scope_error <-> scope = None) /\
  (forall name, old name scope = Throw scope_error <-> scope = None) /\
  (forall name, oldChecked name scope = Throw scope_error <-> scope = None) /\
  (forall name optionValue,
     oldSelected name optionValue scope = Throw scope_error <-> scope = None).
Proof.
  split.
  { destruct scope; simpl; split; try discriminate; eauto. intros [e He]. discriminate. }
  split.
  { destruct scope; simpl; split; try discriminate; reflexivity. }
  split; [reflexivity|].
  split; [intros k v; apply scoped_call; discriminate|].
  split.
  { apply scoped_call. intros store Hthrow.
    apply store_flashInputs_throws in Hthrow. now apply not_scope_error in Hthrow. }
  split; [intros filters; apply scoped_call; discriminate|].
  split; [intros append pick except; apply scoped_call; discriminate|].
  split; [|split].
  - intros name. apply scoped_call. intros store. apply after_getInputs.
    intros [fd|]; discriminate.
  - intros name. apply scoped_call. intros store. apply after_getInputs.
    intros [fd|]; discriminate.
  - intros name optionValue. apply scoped_call. intros store. apply after_getInputs.
    intros [fd|]; discriminate.
Qed.

(** * The form-data codec *)

Section Codec.

(** ** Property tables *)

Lemma obj_get_None {V : Type} (name : string) (o : list (string * V)) :
  obj_get name o = None <-> ~ In name (map fst o).
Proof.
  induction o as [|[n v] o IH]; simpl; [tauto|].
  destruct (String.eqb_spec n name) as [->|Hne].
  - split; [discriminate | intros Hnot; exfalso; apply Hnot; now left].
  - rewrite IH. tauto.
Qed.

Lemma obj_get_update {V : Type} (k n : string) (v : V) (o : list (string * V)) :
  obj_get n (obj_update k v o) =
  if String.eqb k n then option_map (fun _ => v) (obj_get k o) else obj_get n o.
Proof.
  induction o as [|[a w] o IH]; simpl.
  - now destruct (String.eqb k n).
  - destruct (String.eqb_spec a k) as [->|Hak]; simpl.
    + destruct (String.eqb_spec k n) as [->|Hkn]; [reflexivity|].
      reflexivity.
    + rewrite IH. destruct (String.eqb_spec a n) as [->|Han].
      * destruct (String.eqb_spec k n) as [->|Hkn]; [contradiction | reflexivity].
      * reflexivity.
Qed.

Lemma obj_get_insert_index {V : Type} (i : N) (k n : string) (v : V)
    (o : list (string * V)) :
  obj_get k o = None ->
  obj_get n (obj_insert_index i k v o) = if String.eqb k n then Some v else obj_get n o.
Proof.
  induction o as [|[a w] o IH]; simpl; intros Hk; [reflexivity|].
  destruct (String.eqb_spec a k) as [->|Hak]; [discriminate|].
  assert (Hhead : obj_get n ((k, v) :: (a, w) :: o) =
                  if String.eqb k n then Some v
                  else if String.eqb a n then Some w else obj_get n o) by reflexivity.
  destruct (array_index a) as [j|]; [destruct (j <? i)%N|]; try exact Hhead.
  simpl. rewrite (IH Hk).
  destruct (String.eqb_spec a n) as [->|Han]; [|reflexivity].
  destruct (String.eqb_spec k n) as [->|Hkn]; [contradiction | reflexivity].
Qed.

Lemma obj_get_app {V : Type} (n : string) (o1 o2 : list (string * V)) :
  obj_get n (o1 ++ o2) =
  match obj_get n o1 with Some v => Some v | None => obj_get n o2 end.
Proof.
  induction o1 as [|[a w] o1 IH]; simpl; [reflexivity|].
  now destruct (String.eqb a n).
Qed.

Lemma obj_get_define {V : Type} (k n : string) (v : V) (o : list (string * V)) :
  obj_get k o = None ->
  obj_get n (obj_define k v o) = if String.eqb k n then Some v else obj_get n o.
Proof.
  intros Hk. unfold obj_define. destruct (array_index k) as [i|].
  - now apply obj_get_insert_index.
  - rewrite obj_get_app. simpl.
    destruct (String.eqb_spec k n) as [->|Hkn].
    + now rewrite Hk.
    + now destruct (obj_get n o).
Qed.

(** Reading after [o[k] = v]. *)
Lemma obj_get_set {V : Type} (k n : string) (v : V) (o : list (string * V)) :
  obj_get n (obj_set k v o) = if String.eqb k n then Some v else obj_get n o.
Proof.
  unfold obj_set. destruct (obj_get k o) as [w|] eqn:Hk.
  - rewrite obj_get_update, Hk. reflexivity.
  - now apply obj_get_define.
Qed.

Lemma keys_update {V : Type} (k : string) (v : V) (o : list (string * V)) :
  map fst (obj_update k v o) = map fst o.
Proof.
  induction o as [|[a w] o IH]; simpl; [reflexivity|].
  destruct (String.eqb a k); simpl; [reflexivity | now rewrite IH].
Qed.

Lemma keys_insert_index {V : Type} (i : N) (k : string) (v : V) (o : list (string * V)) :
  map fst (obj_insert_index i k v o) ≡ₚ k :: map fst o.
Proof.
  induction o as [|[a w] o IH]; simpl; [reflexivity|].
  destruct (array_index a) as [j|]; [destruct (j <? i)%N|]; simpl; try reflexivity.
  rewrite IH. apply perm_swap.
Qed.

Lemma keys_set {V : Type} (k : string) (v : V) (o : list (string * V)) :
  List.NoDup (map fst o) -> List.NoDup (map fst (obj_set k v o)).
Proof.
  intros Hnd. unfold obj_set. destruct (obj_get k o) as [w|] eqn:Hk.
  - now rewrite keys_update.
  - apply obj_get_None in Hk.
    assert (Hperm : map fst (obj_define k v o) ≡ₚ k :: map fst o).
    { unfold obj_define. destruct (array_index k) as [i|].
      - apply keys_insert_index.
      - rewrite map_app. simpl. symmetry. apply Permutation_cons_append. }
    apply (Permutation_NoDup (symmetry Hperm)). now constructor.
Qed.

(** ** The entries of a record *)

Lemma record_entries_cons (k : string) (vs : list string)
    (o : list (string * list string)) :
  record_entries ((k, vs) :: o) =
  map (fun v => (k, StringEntry v)) vs ++ record_entries o.
Proof. reflexivity. Qed.

Lemma record_entries_app (o1 o2 : list (string * list string)) :
  record_entries (o1 ++ o2) = record_entries o1 ++ record_entries o2.
Proof. unfold record_entries. apply flat_map_app. Qed.

(** A new name with no values yet adds no entry. *)
Lemma record_entries_define (k : string) (o : list (string * list string)) :
  record_entries (obj_define k [] o) = record_entries o.
Proof.
  unfold obj_define. destruct (array_index k) as [i|].
  - induction o as [|[a w] o IH]; simpl; [reflexivity|].
    destruct (array_index a) as [j|]; [destruct (j <? i)%N|]; try reflexivity.
    rewrite !record_entries_cons. now rewrite IH.
  - rewrite record_entries_app. apply app_nil_r.
Qed.

(** [push] on the array of an own property adds one entry. *)
Lemma record_entries_push (k s : string) (arr : list string)
    (o : list (string * list string)) :
  obj_get k o = Some arr ->
  record_entries (obj_update k (arr ++ [s]) o) ≡ₚ record_entries o ++ [(k, StringEntry s)].
Proof.
  induction o as [|[a w] o IH]; simpl; [discriminate|].
  destruct (String.eqb_spec a k) as [->|Hak].
  - intros [= ->]. rewrite !record_entries_cons, map_app. simpl.
    rewrite <- !app_assoc. apply Permutation_app_head.
    apply Permutation_app_comm.
  - intros Hk. rewrite !record_entries_cons, (IH Hk), app_assoc. reflexivity.
Qed.

Lemma getAll_app (n : string) (fd1 fd2 : FormData) :
  FormData_getAll n (fd1 ++ fd2) = FormData_getAll n fd1 ++ FormData_getAll n fd2.
Proof. unfold FormData_getAll. now rewrite List.filter_app, map_app. Qed.

Lemma getAll_same_name (k n : string) (vs : list string) :
  FormData_getAll n (map (fun v => (k, StringEntry v)) vs) =
  if String.eqb k n then map StringEntry vs else [].
Proof.
  unfold FormData_getAll.
  induction vs as [|v vs IH]; simpl; [now destruct (String.eqb k n)|].
  destruct (String.eqb k n); simpl; [now rewrite IH | exact IH].
Qed.

Lemma getAll_absent (n : string) (o : list (string * list string)) :
  ~ In n (map fst o) -> FormData_getAll n (record_entries o) = [].
Proof.
  induction o as [|[k vs] o IH]; intros Hnot; [reflexivity|].
  rewrite record_entries_cons, getAll_app, getAll_same_name. simpl in Hnot.
  destruct (String.eqb_spec k n) as [->|Hkn]; [exfalso; apply Hnot; now left|].
  apply IH. tauto.
Qed.

(** With distinct names, the values of a name are the array stored under
    it. *)
Lemma getAll_record (n : string) (o : list (string * list string)) :
  List.NoDup (map fst o) ->
  FormData_getAll n (record_entries o) = map StringEntry (default [] (obj_get n o)).
Proof.
  induction o as [|[k vs] o IH]; intros Hnd; [reflexivity|].
  simpl in Hnd. inversion Hnd as [|? ? Hnot Hnd']; subst.
  rewrite record_entries_cons, getAll_app, getAll_same_name. simpl obj_get.
  destruct (String.eqb_spec k n) as [->|Hkn]; simpl.
  - rewrite (getAll_absent n o Hnot). apply app_nil_r.
  - now apply IH.
Qed.

(** ** [deserializeFormData] on a record *)

Lemma append_values (name : string) (vs : list string) (fd : FormData) :
  append_values_of name (map JString vs) fd =
  Normal (fd ++ map (fun v => (name, StringEntry v)) vs).
Proof.
  revert fd. induction vs as [|v vs IH]; intros fd; simpl.
  - now rewrite app_nil_r.
  - rewrite IH. unfold FormData_append. now rewrite <- app_assoc.
Qed.

Lemma deserialize_record (obj : list (string * list string)) :
  deserializeFormData (Record_to_JSON obj) = Normal (record_entries obj).
Proof.
  unfold deserializeFormData, Record_to_JSON. simpl.
  enough (Hgen : forall fd,
    deserialize_props (map (fun p => (fst p, JArray (map JString (snd p)))) obj) fd =
    Normal (fd ++ record_entries obj)) by apply (Hgen []).
  induction obj as [|[k vs] obj IH]; intros fd.
  - simpl. now rewrite app_nil_r.
  - rewrite record_entries_cons. simpl. rewrite append_values. simpl. rewrite IH.
    now rewrite app_assoc.
Qed.

End Codec.

(** * The round trip *)

Section RoundTrip.

(** One turn of the loop on a string field whose name objects do not
    inherit: it does not throw, keeps the names distinct, and appends the
    value to the array of its name. *)
Lemma serialize_entry_string (obj : list (string * list string)) (k s : string) :
  inherited k = false ->
  List.NoDup (map fst obj) ->
  exists obj',
    serialize_entry obj (k, StringEntry s) = Normal obj' /\
    List.NoDup (map fst obj') /\
    (forall n, default [] (obj_get n obj') =
               default [] (obj_get n obj) ++ (if String.eqb k n then [s] else [])) /\
    record_entries obj' ≡ₚ record_entries obj ++ [(k, StringEntry s)].
Proof.
  intros Hplain Hnd. unfold serialize_entry. simpl.
  destruct (obj_get k obj) as [arr|] eqn:Hk.
  - rewrite Hk. eexists. split; [reflexivity|].
    split; [now apply keys_set|]. split.
    + intros n. rewrite obj_get_set.
      destruct (String.eqb_spec k n) as [<-|Hkn]; [now rewrite Hk|].
      now rewrite app_nil_r.
    + unfold obj_set. rewrite Hk. now apply record_entries_push.
  - rewrite Hplain.
    assert (Hk1 : obj_get k (obj_set k [] obj) = Some []).
    { rewrite obj_get_set. now rewrite String.eqb_refl. }
    rewrite Hk1. eexists. split; [reflexivity|].
    split; [now apply keys_set, keys_set|]. split.
    + intros n. rewrite !obj_get_set.
      destruct (String.eqb_spec k n) as [<-|Hkn]; [now rewrite Hk|].
      now rewrite app_nil_r.
    + unfold obj_set at 1. rewrite Hk1.
      rewrite (record_entries_push k s [] _ Hk1).
      unfold obj_set. rewrite Hk. now rewrite record_entries_define.
Qed.

Lemma serialize_entries_spec (es : FormData) (obj : list (string * list string)) :
  plain_names es ->
  List.NoDup (map fst obj) ->
  exists obj',
    serialize_entries es obj = Normal obj' /\
    List.NoDup (map fst obj') /\
    (forall n, map StringEntry (default [] (obj_get n obj')) =
               map StringEntry (default [] (obj_get n obj)) ++
               FormData_getAll n (string_entries es)) /\
    record_entries obj' ≡ₚ record_entries obj ++ string_entries es.
Proof.
  revert obj. induction es as [|[k entry] es IH]; intros obj Hplain Hnd.
  - exists obj. split; [reflexivity|]. split; [exact Hnd|]. split.
    + intros n. simpl. now rewrite app_nil_r.
    + simpl. now rewrite app_nil_r.
  - destruct entry as [s|file].
    + assert (Hk : inherited k = false).
      { apply (Hplain (k, StringEntry s)). now left. }
      assert (Hrest : plain_names es).
      { intros e Hin. apply Hplain. now right. }
      destruct (serialize_entry_string obj k s Hk Hnd)
        as (obj1 & Hstep & Hnd1 & Hget1 & Hperm1).
      destruct (IH obj1 Hrest Hnd1) as (obj' & Hrun & Hnd' & Hget' & Hperm').
      exists obj'. split; [simpl serialize_entries; now rewrite Hstep|].
      split; [exact Hnd'|]. split.
      * intros n. rewrite Hget', Hget1, map_app, <- app_assoc. f_equal.
        unfold string_entries, FormData_getAll. simpl.
        now destruct (String.eqb k n).
      * rewrite Hperm', Hperm1, <- app_assoc. reflexivity.
    + destruct (IH obj Hplain Hnd) as (obj' & Hrun & Hnd' & Hget' & Hperm').
      exists obj'. split; [exact Hrun|]. split; [exact Hnd'|].
      split; [exact Hget' | exact Hperm'].
Qed.

Lemma string_entries_all (x : FormData) :
  forallb is_StringEntry x = true -> string_entries x = x.
Proof.
  intros Hall. unfold string_entries.
  induction x as [|e x IH]; simpl in *; [reflexivity|].
  apply andb_true_iff in Hall as [He Hx]. rewrite He. now rewrite IH.
Qed.

(** The names collected from a submission are the names of its fields. *)
Lemma insert_name_In (i : N) (k : string) (names : list string) (n : string) :
  In n (insert_name i k names) <-> n = k \/ In n names.
Proof.
  induction names as [|a names IH]; simpl; [intuition congruence|].
  destruct (array_index a) as [j|]; [destruct (j <? i)%N|]; simpl;
    rewrite ?IH; intuition congruence.
Qed.

Lemma add_name_In (names : list string) (k n : string) :
  In n (add_name names k) <-> In n names \/ n = k.
Proof.
  unfold add_name. destruct (existsb (String.eqb k) names) eqn:Hhas.
  - apply existsb_exists in Hhas as (a & Ha & Heq). apply String.eqb_eq in Heq. subst a.
    split; [now left | intros [Hin | ->]; assumption].
  - destruct (array_index k) as [i|].
    + rewrite insert_name_In. tauto.
    + rewrite in_app_iff. simpl. intuition congruence.
Qed.

Lemma names_fold_In (es : FormData) (names : list string) (n : string) :
  In n (fold_left (fun names e => add_name names (fst e)) es names) <->
  In n names \/ exists e, In e es /\ fst e = n.
Proof.
  revert names. induction es as [|e es IH]; intros names; simpl.
  - split; [now left | intros [Hin | (e & [] & _)]; exact Hin].
  - rewrite IH, add_name_In. split.
    + intros [[Hin | ->] | (e' & He' & Hn)]; eauto.
    + intros [Hin | (e' & [<- | He'] & Hn)]; eauto.
Qed.

(** The names of the record, turn by turn. *)
Lemma names_insert_index {V : Type} (i : N) (k : string) (v : V) (o : list (string * V)) :
  map fst (obj_insert_index i k v o) = insert_name i k (map fst o).
Proof.
  induction o as [|[a w] o IH]; simpl; [reflexivity|].
  destruct (array_index a) as [j|]; [destruct (j <? i)%N|]; simpl;
    [now rewrite IH | reflexivity | reflexivity].
Qed.

Lemma names_have {V : Type} (k : string) (o : list (string * V)) :
  existsb (String.eqb k) (map fst o) =
  match obj_get k o with
  | Some _ => true
  | None => false
  end.
Proof.
  induction o as [|[a w] o IH]; simpl; [reflexivity|].
  rewrite (String.eqb_sym k a). destruct (String.eqb a k); simpl; [reflexivity | exact IH].
Qed.

Lemma serialize_entry_names (obj obj' : list (string * list string)) (k s : string) :
  inherited k = false ->
  serialize_entry obj (k, StringEntry s) = Normal obj' ->
  map fst obj' = add_name (map fst obj) k.
Proof.
  intros Hplain. unfold serialize_entry, add_name. simpl.
  rewrite names_have, Hplain.
  destruct (obj_get k obj) as [arr|] eqn:Hk.
  - rewrite Hk. intros [= <-]. unfold obj_set. rewrite Hk. apply keys_update.
  - assert (Hdef : obj_set k [] obj = obj_define k [] obj).
    { unfold obj_set. now rewrite Hk. }
    rewrite Hdef.
    destruct (obj_get k (obj_define k [] obj)) as [arr|] eqn:Hk1; [|discriminate].
    intros [= <-]. unfold obj_set. rewrite Hk1, keys_update.
    unfold obj_define. destruct (array_index k) as [i|].
    + apply names_insert_index.
    + now rewrite map_app.
Qed.

Lemma serialize_entries_names (es : FormData) (obj obj' : list (string * list string)) :
  plain_names es ->
  serialize_entries es obj = Normal obj' ->
  map fst obj' =
  fold_left (fun names e => add_name names (fst e)) (string_entries es) (map fst obj).
Proof.
  revert obj. induction es as [|[k entry] es IH]; intros obj Hplain Hrun.
  - simpl in Hrun. now injection Hrun as <-.
  - destruct entry as [s|file].
    + assert (Hk : inherited k = false).
      { apply (Hplain (k, StringEntry s)). now left. }
      assert (Hrest : plain_names es).
      { intros e Hin. apply Hplain. now right. }
      simpl in Hrun.
      destruct (serialize_entry obj (k, StringEntry s)) as [obj1|err] eqn:Hstep;
        simpl in Hrun; [|discriminate].
      rewrite (IH obj1 Hrest Hrun). simpl.
      now rewrite (serialize_entry_names obj obj1 k s Hk Hstep).
    + apply (IH obj); [|exact Hrun].
      intros e Hin. apply Hplain. exact Hin.
Qed.

Lemma obj_get_In {V : Type} (n : string) (v : V) (o : list (string * V)) :
  List.NoDup (map fst o) -> In (n, v) o -> obj_get n o = Some v.
Proof.
  induction o as [|[a w] o IH]; simpl; [contradiction|].
  intros Hnd [Heq|Hin].
  - injection Heq as -> ->. now rewrite String.eqb_refl.
  - inversion Hnd as [|? ? Ha Hnd']; subst.
    destruct (String.eqb_spec a n) as [->|Hne]; [|now apply IH].
    elim Ha. apply in_map_iff. now exists (n, v).
Qed.

(** The entries of a record, by the names of the record. *)
Lemma record_entries_by_name (obj : list (string * list string)) (x : FormData) :
  List.NoDup (map fst obj) ->
  (forall n, map StringEntry (default [] (obj_get n obj)) = FormData_getAll n x) ->
  record_entries obj =
  flat_map (fun name => map (pair name) (FormData_getAll name x)) (map fst obj).
Proof.
  intros Hnd Hget. unfold record_entries.
  assert (Hblock : forall p, In p obj ->
    map (fun v => (fst p, StringEntry v)) (snd p) =
    map (pair (fst p)) (FormData_getAll (fst p) x)).
  { intros [n vs] Hin. simpl. rewrite <- Hget, (obj_get_In n vs obj Hnd Hin). simpl.
    now rewrite map_map. }
  clear Hnd Hget. induction obj as [|p obj IH]; simpl; [reflexivity|].
  rewrite (Hblock p) by now left. f_equal. apply IH.
  intros q Hq. apply Hblock. now right.
Qed.

End RoundTrip.

(** C3, as the code has it -- For every form submission [x] none of whose
    string fields bears a name that objects inherit, [serializeFormData(x)]
    returns, and [deserializeFormData] of the result is [x] regrouped: the
    string-valued entries of [x] grouped by name, each name in one block
    that holds the values of that name in the order of [x], the blocks in
    the property order of the record (a name that is no array index behind
    the names before it, an array-index name before the first name that is
    not a smaller array index).  So the result holds exactly the
    string-valued entries of [x], each as often as [x] has it, and under
    every name the values [x] has under it, in order; entries whose value is
    not a string are dropped; the order of entries of different names is
    not kept.  For a submission of string fields only, the string-valued
    entries are all of [x]. *)
Theorem form_data_round_trip (x : FormData) (Hplain : plain_names x) :
  exists obj,
    serializeFormData x = Normal obj /\
    deserializeFormData (Record_to_JSON obj) = Normal (regrouped x) /\
    List.NoDup (record_names x) /\
    (forall name, In name (record_names x) <->
                  exists e, In e (string_entries x) /\ fst e = name) /\
    regrouped x ≡ₚ string_entries x /\
    (forall name,
       FormData_getAll name (regrouped x) = FormData_getAll name (string_entries x)) /\
    (forallb is_StringEntry x = true -> string_entries x = x).
Proof.
  destruct (serialize_entries_spec x [] Hplain (List.NoDup_nil _))
    as (obj & Hrun & Hnd & Hget & Hperm).
  assert (Hnames : map fst obj = record_names x).
  { apply (serialize_entries_names x [] obj Hplain Hrun). }
  assert (Hentries : record_entries obj = regrouped x).
  { unfold regrouped. rewrite <- Hnames.
    apply record_entries_by_name; [exact Hnd | exact Hget]. }
  exists obj.
  split; [exact Hrun|]. split; [rewrite <- Hentries; apply deserialize_record|].
  split; [now rewrite <- Hnames|].
  split.
  { intros name. unfold record_names. rewrite names_fold_In. simpl. tauto. }
  split; [now rewrite <- Hentries|]. split; [|apply string_entries_all].
  intros name. rewrite <- Hentries, (getAll_record name obj Hnd), Hget. reflexivity.
Qed.

(** A submission with an upload and a repeated name. *)
Lemma form_data_round_trip_witness :
  plain_names with_upload /\
  exists obj,
    serializeFormData with_upload = Normal obj /\
    deserializeFormData (Record_to_JSON obj) =
      Normal [("name", StringEntry "Alice"); ("tags", StringEntry "a");
              ("tags", StringEntry "b")].
Proof.
  assert (Hplain : plain_names with_upload).
  { intros e Hin. simpl in Hin.
    destruct Hin as [<-|[<-|[<-|[]]]]; reflexivity. }
  split; [exact Hplain|].
  destruct (form_data_round_trip with_upload Hplain) as (obj & Hser & Hde & _).
  exists obj. split; [exact Hser | exact Hde].
Defined.

(** C3, as stated, fails: the round trip of a submission whose fields
    alternate between two names groups them by name, and the round trip of a
    submission with an array-index name moves that name to the front. *)
Lemma form_data_round_trip_reorders :
  (exists obj fd,
     forallb is_StringEntry alternating = true /\
     serializeFormData alternating = Normal obj /\
     deserializeFormData (Record_to_JSON obj) = Normal fd /\
     fd = [("a", StringEntry "1"); ("a", StringEntry "3"); ("b", StringEntry "2")] /\
     fd <> alternating) /\
  (exists obj fd,
     forallb is_StringEntry index_named = true /\
     serializeFormData index_named = Normal obj /\
     deserializeFormData (Record_to_JSON obj) = Normal fd /\
     fd = [("1", StringEntry "y"); ("b", StringEntry "x")] /\
     fd <> index_named).
Proof.
  split; eexists; eexists.
  - split; [reflexivity|]. split; [reflexivity|]. split; [reflexivity|].
    split; [reflexivity | discriminate].
  - split; [reflexivity|]. split; [vm_compute; reflexivity|].
    split; [reflexivity|]. split; [reflexivity | discriminate].
Qed.

(** A field named like an inherited property makes [serializeFormData]
    throw; a field named [__proto__] does not. *)
Example serialize_inherited_name :
  serializeFormData [("constructor", StringEntry "x")] =
  Throw (TypeError "obj[key].push is not a function").
Proof. reflexivity. Qed.

Example serialize_proto_name :
  serializeFormData [("__proto__", StringEntry "x")] = Normal [("__proto__", ["x"])].
Proof. reflexivity. Qed.

(** * The middleware *)

Section Middleware.
Context `{JSONRuntime}.

(** Without pick and omit, everything is carried forward. *)
Lemma filterFlashValues_all (vs : list FlashValue) :
  filterFlashValues vs (FNested []) (FNested []) = vs.
Proof.
  unfold filterFlashValues. simpl.
  induction vs as [|fv vs IH]; simpl; [reflexivity | now rewrite IH].
Qed.

(** On a redirect that answers a GET request, the middleware reflashes the
    whole of [current] and commits: the response gets a flash cookie even
    when downstream has flashed nothing and no cookie came in. *)
Lemma honold_redirect `{CookieSerializer} (c : HonoContext)
    (handler : FlashStore.t -> Completion FlashStore.t) (s0 s : FlashStore.t) :
  FlashStore.construct c "flash" = Normal s0 ->
  handler s0 = Normal s ->
  (300 <= res_status (FlashStore.context s) < 400)%Z ->
  toUpperCase (req_method (FlashStore.context s)) = "GET" ->
  exists s',
    honold None None c handler = Normal s' /\
    res_cookies (FlashStore.context s') =
      res_cookies (FlashStore.context s) ++
      [flash_cookie (FlashStore.cookieName s)
         {| values := values (FlashStore.next s) ++ values (FlashStore.current s);
            valid := true |}].
Proof.
  intros Hnew Hrun [Hlow Hhigh] Hget.
  unfold honold. simpl. rewrite Hnew. simpl. rewrite Hrun. simpl.
  rewrite Hget. simpl.
  destruct (Z.leb_spec 300 (res_status (FlashStore.context s))); [|lia].
  destruct (Z.ltb_spec (res_status (FlashStore.context s)) 400); [|lia].
  simpl. eexists. split; [reflexivity|].
  rewrite commit_valid by reflexivity.
  unfold with_response_cookie, FlashStore.reflash. simpl.
  now rewrite filterFlashValues_all.
Qed.

End Middleware.

(** * The handler's calls on the store *)

Section HandlerCalls.

(** No call touches [current], the context or the cookie name. *)
Lemma call_frame (c : StoreCall) (s : FlashStore.t) :
  FlashStore.current (call c s) = FlashStore.current s /\
  FlashStore.context (call c s) = FlashStore.context s /\
  FlashStore.cookieName (call c s) = FlashStore.cookieName s.
Proof.
  destruct c as [k v| | |f|options]; simpl; try (repeat split; reflexivity).
  - unfold FlashStore.flashInputs.
    destruct (FlashStore.formData (FlashStore.context s)) as [fd|e]; simpl;
      [|repeat split; reflexivity].
    destruct (serializeFormData fd) as [obj|e]; simpl; repeat split; reflexivity.
  - unfold FlashStore.reflash.
    destruct (default true (opt_append options)); repeat split; reflexivity.
Qed.

Lemma calls_frame (cs : list StoreCall) (s : FlashStore.t) :
  FlashStore.current (calls cs s) = FlashStore.current s /\
  FlashStore.context (calls cs s) = FlashStore.context s /\
  FlashStore.cookieName (calls cs s) = FlashStore.cookieName s.
Proof.
  revert s. induction cs as [|c cs IH]; intros s; simpl; [repeat split; reflexivity|].
  destruct (IH (call c s)) as (Hcur & Hctx & Hname).
  destruct (call_frame c s) as (Hcur1 & Hctx1 & Hname1).
  unfold calls in *. rewrite Hcur, Hctx, Hname. repeat split; assumption.
Qed.

(** What a call queues comes after what was queued, unless the call is a
    [reflash] that replaces. *)
Lemma call_appends (c : StoreCall) (s : FlashStore.t) :
  replaces c = false ->
  exists more,
    values (FlashStore.next (call c s)) = values (FlashStore.next s) ++ more.
Proof.
  destruct c as [k v| | |f|options]; simpl; intros Hkeep.
  - eexists. reflexivity.
  - unfold FlashStore.flashInputs.
    destruct (FlashStore.formData (FlashStore.context s)) as [fd|e]; simpl;
      [|exists []; now rewrite app_nil_r].
    destruct (serializeFormData fd) as [obj|e]; simpl;
      [eexists; reflexivity | exists []; now rewrite app_nil_r].
  - exists []. now rewrite app_nil_r.
  - exists []. now rewrite app_nil_r.
  - rewrite reflash_next. apply negb_false_iff in Hkeep. rewrite Hkeep.
    eexists. reflexivity.
Qed.

(** A call that is no [reflash] computes [next] from [next] and the context
    alone. *)
Lemma call_ignores_current (c : StoreCall) (s s' : FlashStore.t) :
  is_reflash c = false ->
  FlashStore.context s = FlashStore.context s' ->
  FlashStore.next s = FlashStore.next s' ->
  FlashStore.next (call c s) = FlashStore.next (call c s').
Proof.
  destruct c as [k v| | |f|options]; simpl; intros Hno Hctx Hnext;
    try discriminate; try assumption.
  - now rewrite Hnext.
  - unfold FlashStore.flashInputs. rewrite Hctx.
    destruct (FlashStore.formData (FlashStore.context s')) as [fd|e]; simpl;
      [|assumption].
    destruct (serializeFormData fd) as [obj|e]; simpl; [now rewrite Hnext | assumption].
Qed.

Lemma is_inputs_key_not_user (fv : FlashValue) :
  FlashStore.is_inputs_key (key fv) = true -> user_value fv = false.
Proof.
  unfold FlashStore.is_inputs_key, user_value.
  destruct (key fv) as [|seg rest]; simpl; [reflexivity|].
  intros Hin. apply andb_true_iff in Hin as [_ Hseg].
  apply String.eqb_eq in Hseg. now subst.
Qed.

Lemma flashed_in_namespace (k : KeyArg) (v : JSONValue) :
  in_namespace {| key := "ext" :: flat_key k; value := v |} = true /\
  FlashStore.is_inputs_key ("ext" :: flat_key k) = false.
Proof.
  split; [reflexivity|].
  unfold FlashStore.is_inputs_key. simpl. apply andb_false_r.
Qed.

Lemma forallb_app_intro {A : Type} (p : A -> bool) (l1 l2 : list A) :
  forallb p l1 = true -> forallb p l2 = true -> forallb p (l1 ++ l2) = true.
Proof. intros H1 H2. rewrite forallb_app, H1, H2. reflexivity. Qed.

Lemma forallb_filter_intro {A : Type} (p q : A -> bool) (l : list A) :
  forallb p l = true -> forallb p (List.filter q l) = true.
Proof.
  intros Hall. apply forallb_forall. intros x Hin.
  apply filter_In in Hin as [Hin _]. revert x Hin. now apply forallb_forall.
Qed.

Lemma call_in_namespace (c : StoreCall) (s : FlashStore.t) :
  forallb in_namespace (values (FlashStore.current s)) = true ->
  forallb in_namespace (values (FlashStore.next s)) = true ->
  forallb in_namespace (values (FlashStore.next (call c s))) = true.
Proof.
  intros Hcur Hnext. destruct c as [k v| | |f|options]; simpl; try assumption.
  - apply forallb_app_intro; [assumption | reflexivity].
  - unfold FlashStore.flashInputs.
    destruct (FlashStore.formData (FlashStore.context s)) as [fd|e]; simpl;
      [|assumption].
    destruct (serializeFormData fd) as [obj|e]; simpl; [|assumption].
    apply forallb_app_intro; [assumption | reflexivity].
  - rewrite reflash_next. simpl. apply forallb_app_intro.
    + destruct (default true (opt_append options)); [assumption | reflexivity].
    + unfold filterFlashValues. now apply forallb_filter_intro.
Qed.

Lemma find_filter {A : Type} (p q : A -> bool) (l : list A) :
  (forall x, p x = true -> q x = true) ->
  find p (List.filter q l) = find p l.
Proof.
  intros Hpq. induction l as [|x l IH]; simpl; [reflexivity|].
  destruct (q x) eqn:Hq; simpl.
  - destruct (p x); [reflexivity | exact IH].
  - destruct (p x) eqn:Hp; [apply Hpq in Hp; congruence | exact IH].
Qed.

Lemma filter_filter_implied {A : Type} (p q : A -> bool) (l : list A) :
  (forall x, p x = true -> q x = true) ->
  List.filter p (List.filter q l) = List.filter p l.
Proof.
  intros Hpq. induction l as [|x l IH]; simpl; [reflexivity|].
  destruct (q x) eqn:Hq; simpl.
  - destruct (p x); [now rewrite IH | exact IH].
  - destruct (p x) eqn:Hp; [apply Hpq in Hp; congruence | exact IH].
Qed.

End HandlerCalls.

(** X1 -- Whatever a handler calls on its store ([flash], [flashInputs],
    [getInputs], [get], [reflash], in any number and order), [current], the
    request context and the cookie name stay as they were; so every read,
    [get] with or without filter and [getInputs], returns after the calls
    what it returned before them: nothing written in a request can be read
    in that request. *)
Theorem handler_calls_leave_reads (cs : list StoreCall) (s : FlashStore.t) :
  FlashStore.current (calls cs s) = FlashStore.current s /\
  FlashStore.context (calls cs s) = FlashStore.context s /\
  FlashStore.cookieName (calls cs s) = FlashStore.cookieName s /\
  (forall keyFilter,
     FlashStore.get keyFilter (calls cs s) = FlashStore.get keyFilter s) /\
  FlashStore.getInputs (calls cs s) = FlashStore.getInputs s.
Proof.
  destruct (calls_frame cs s) as (Hcur & Hctx & Hname).
  split; [exact Hcur|]. split; [exact Hctx|]. split; [exact Hname|]. split.
  - intros [k|]; simpl; now rewrite Hcur.
  - unfold FlashStore.getInputs. now rewrite Hcur.
Qed.

(** X2 -- Without a call of [reflash], what a request queues for the next
    one does not depend on what it has read: two stores with the same
    context and the same [next] have the same [next] after the same calls,
    whatever their [current] holds.  A flashed value is passed on once. *)
Theorem current_is_not_passed_on (cs : list StoreCall) (s s' : FlashStore.t)
    (Hcalls : forallb (fun c => negb (is_reflash c)) cs = true)
    (Hctx : FlashStore.context s = FlashStore.context s')
    (Hnext : FlashStore.next s = FlashStore.next s') :
  FlashStore.next (calls cs s) = FlashStore.next (calls cs s').
Proof.
  revert s s' Hctx Hnext. induction cs as [|c cs IH]; intros s s' Hctx Hnext;
    simpl in *; [assumption|].
  apply andb_true_iff in Hcalls as [Hc Hcs]. apply negb_true_iff in Hc.
  apply (IH Hcs).
  - destruct (call_frame c s) as (_ & -> & _).
    destruct (call_frame c s') as (_ & -> & _). exact Hctx.
  - now apply call_ignores_current.
Qed.

(** Flashing an error on a store that read [too_short] and on one that read
    [stale] queues the same. *)
Lemma current_is_not_passed_on_witness :
  FlashStore.next
    (calls [CallFlash (KString "error") (JString "again")] (store_reading too_short)) =
  FlashStore.next
    (calls [CallFlash (KString "error") (JString "again")] (store_reading stale)).
Proof.
  apply (current_is_not_passed_on
           [CallFlash (KString "error") (JString "again")]
           (store_reading too_short) (store_reading stale)); reflexivity.
Defined.

(** X3 -- What is queued stays queued, in its order and at the front of
    [next.values], through every call except a [reflash] with
    [append: false]. *)
Theorem queued_values_persist (cs : list StoreCall) (s : FlashStore.t)
    (Hcalls : forallb (fun c => negb (replaces c)) cs = true) :
  values (FlashStore.next s) `prefix_of` values (FlashStore.next (calls cs s)).
Proof.
  revert s. induction cs as [|c cs IH]; intros s; simpl in *; [reflexivity|].
  apply andb_true_iff in Hcalls as [Hc Hcs]. apply negb_true_iff in Hc.
  destruct (call_appends c s Hc) as (more & Hmore).
  transitivity (values (FlashStore.next (call c s))).
  - rewrite Hmore. now apply prefix_app_r.
  - apply (IH Hcs).
Qed.

Lemma queued_values_persist_witness :
  values (FlashStore.next (store_with too_short (values stale))) `prefix_of`
  values (FlashStore.next
            (calls [CallFlash (KString "a") JNull; CallReflash no_options; CallFlashInputs]
               (store_with too_short (values stale)))).
Proof.
  apply (queued_values_persist
           [CallFlash (KString "a") JNull; CallReflash no_options; CallFlashInputs]
           (store_with too_short (values stale))).
  reflexivity.
Defined.

(** X4 -- The key namespace is kept: when every value read from the cookie
    and every value queued so far lies under [ext] or under the key
    [inputs] alone, so does every value queued after any calls; and no key
    that [flash] writes is the key of the input snapshot. *)
Theorem namespace_is_kept (cs : list StoreCall) (s : FlashStore.t)
    (Hcur : forallb in_namespace (values (FlashStore.current s)) = true)
    (Hnext : forallb in_namespace (values (FlashStore.next s)) = true) :
  forallb in_namespace (values (FlashStore.next (calls cs s))) = true /\
  forall k, FlashStore.is_inputs_key ("ext" :: flat_key k) = false.
Proof.
  split; [|intros k; apply (flashed_in_namespace k JNull)].
  revert s Hcur Hnext. induction cs as [|c cs IH]; intros s Hcur Hnext; simpl;
    [assumption|].
  apply IH.
  - destruct (call_frame c s) as (-> & _). exact Hcur.
  - now apply call_in_namespace.
Qed.

Lemma namespace_is_kept_witness :
  forallb in_namespace
    (values (FlashStore.next
               (calls [CallFlash (KString "inputs") (JString "x"); CallReflash no_options]
                  (store_reading alice_inputs)))) = true.
Proof.
  apply (namespace_is_kept
           [CallFlash (KString "inputs") (JString "x"); CallReflash no_options]
           (store_reading alice_inputs)); reflexivity.
Defined.

(** X5 -- The two namespaces do not meet on reading: [getInputs] returns the
    same with every value under [ext] removed from [current], so a flash
    under the key [inputs] is never taken for the snapshot; and [get] with a
    filter returns the same with every value outside [ext] removed, so it
    never returns the snapshot. *)
Theorem reads_are_isolated (s : FlashStore.t) (k : KeyArg) :
  FlashStore.getInputs (without user_value s) = FlashStore.getInputs s /\
  FlashStore.get (Some k) (without (fun fv => negb (user_value fv)) s) =
    FlashStore.get (Some k) s.
Proof.
  split.
  - unfold FlashStore.getInputs, without. simpl.
    rewrite find_filter; [reflexivity|].
    intros fv Hin. now rewrite (is_inputs_key_not_user fv Hin).
  - unfold FlashStore.get, without. simpl.
    rewrite filter_filter_implied; [reflexivity|].
    intros fv Hm. rewrite negb_involutive. unfold user_value.
    destruct (key fv) as [|seg rest]; [discriminate|].
    rewrite every_cons_cons in Hm. now apply andb_true_iff in Hm as [-> _].
Qed.

(** * Reflash and get, composed *)

Section Composition.

Lemma filter_idempotent {A : Type} (p : A -> bool) (l : list A) :
  List.filter p (List.filter p l) = List.filter p l.
Proof.
  induction l as [|x l IH]; simpl; [reflexivity|].
  destruct (p x) eqn:Hp; simpl; [now rewrite Hp, IH | exact IH].
Qed.

Lemma filter_implied_sublist {A : Type} (p q : A -> bool) (l : list A) :
  (forall x, p x = true -> q x = true) ->
  List.filter p l `sublist_of` List.filter q l.
Proof.
  intros Hpq. induction l as [|x l IH]; simpl; [constructor|].
  destruct (p x) eqn:Hp.
  - rewrite (Hpq x Hp). now constructor.
  - destruct (q x); [now constructor | exact IH].
Qed.

Lemma map_sublist {A B : Type} (f : A -> B) (l1 l2 : list A) :
  l1 `sublist_of` l2 -> map f l1 `sublist_of` map f l2.
Proof. induction 1; simpl; now constructor. Qed.

Lemma reflash_current (options : ReflashOptions) (s : FlashStore.t) :
  FlashStore.current (FlashStore.reflash options s) = FlashStore.current s.
Proof.
  unfold FlashStore.reflash. now destruct (default true (opt_append options)).
Qed.

End Composition.

(** X6 -- [reflash] is not idempotent when it appends: called twice with the
    same options it queues the carried values twice.  With [append: false]
    it replaces: whatever the handler has queued before, by any calls, is
    discarded, and [next] holds the carried values only. *)
Theorem reflash_appends_or_replaces
    (options : ReflashOptions) (cs : list StoreCall) (s : FlashStore.t) :
  let carried :=
    filterFlashValues (values (FlashStore.current s))
      (default (FNested []) (opt_pick options))
      (default (FNested []) (opt_omit options)) in
  let replacing :=
    {| opt_append := Some false;
       opt_omit := opt_omit options; opt_pick := opt_pick options |} in
  FlashStore.next (FlashStore.reflash options (FlashStore.reflash options s)) =
    {| valid := true;
       values :=
         (if default true (opt_append options)
          then values (FlashStore.next s) ++ carried
          else []) ++ carried |} /\
  FlashStore.next (FlashStore.reflash replacing (calls cs s)) =
    {| valid := true; values := carried |}.
Proof.
  cbv zeta. split.
  - rewrite reflash_next, reflash_current, reflash_next. simpl.
    now destruct (default true (opt_append options)).
  - rewrite reflash_next. destruct (calls_frame cs s) as (-> & _). reflexivity.
Qed.

(** X7 -- What [reflash] has carried forward passes the same pick and omit
    again: filtering the next container, the values queued before followed
    by the carried ones, keeps every carried value, in place. *)
Theorem carried_values_pass_again
    (queued vs : list FlashValue) (pick omit : FilterArg) :
  filterFlashValues (queued ++ filterFlashValues vs pick omit) pick omit =
  filterFlashValues queued pick omit ++ filterFlashValues vs pick omit.
Proof.
  unfold filterFlashValues. rewrite List.filter_app. f_equal.
  apply filter_idempotent.
Qed.

(** X8 -- A longer filter narrows: what [get] returns for the path [p]
    followed by [q] is a sublist of what it returns for [p], and a one-string
    filter is the one-segment path. *)
Theorem get_narrows (p q : list string) (seg : string) (s : FlashStore.t) :
  (exists ws ws',
     FlashStore.get (Some (KArray (p ++ q))) s = MatchingValues ws /\
     FlashStore.get (Some (KArray p)) s = MatchingValues ws' /\
     ws `sublist_of` ws') /\
  FlashStore.get (Some (KString seg)) s = FlashStore.get (Some (KArray [seg])) s.
Proof.
  split; [|reflexivity].
  eexists. eexists. split; [reflexivity|]. split; [reflexivity|].
  apply map_sublist, filter_implied_sublist.
  intros fv Hm. apply every_prefix. apply every_prefix in Hm.
  simpl in *. transitivity ("ext" :: p ++ q); [|exact Hm].
  apply prefix_cons. now apply prefix_app_r.
Qed.

(** * The record that [serializeFormData] builds *)

Section SerializedRecord.

Lemma keys_get {V : Type} (n : string) (o : list (string * V)) :
  In n (map fst o) <-> obj_get n o <> None.
Proof.
  destruct (obj_get n o) as [v|] eqn:Hget.
  - split; [discriminate|]. intros _.
    destruct (in_dec string_dec n (map fst o)) as [Hin|Hnot]; [exact Hin|].
    apply obj_get_None in Hnot. congruence.
  - apply obj_get_None in Hget. split; [contradiction | congruence].
Qed.

(** What one turn of the loop leaves under every name. *)
Lemma serialize_entry_get (obj : list (string * list string)) (k s : string) :
  inherited k = false ->
  exists obj',
    serialize_entry obj (k, StringEntry s) = Normal obj' /\
    forall n, obj_get n obj' =
              if String.eqb k n then Some (default [] (obj_get k obj) ++ [s])
              else obj_get n obj.
Proof.
  intros Hplain. unfold serialize_entry. simpl.
  destruct (obj_get k obj) as [arr|] eqn:Hk.
  - rewrite Hk. eexists. split; [reflexivity|].
    intros n. now rewrite obj_get_set.
  - rewrite Hplain.
    assert (Hk1 : obj_get k (obj_set k [] obj) = Some []).
    { rewrite obj_get_set. now rewrite String.eqb_refl. }
    rewrite Hk1. eexists. split; [reflexivity|].
    intros n. rewrite !obj_get_set. now destruct (String.eqb k n).
Qed.

(** A string field named like an inherited property stops the loop at its
    turn, when no such name is an own property yet. *)
Lemma serialize_entry_inherited (obj : list (string * list string)) (k s : string) :
  inherited k = true ->
  obj_get k obj = None ->
  serialize_entry obj (k, StringEntry s) =
  Throw (TypeError "obj[key].push is not a function").
Proof.
  intros Hin Hk. unfold serialize_entry. simpl. now rewrite Hk, Hin, Hk.
Qed.

Lemma getAll_cons (n k : string) (v : FormDataEntryValue) (fd : FormData) :
  FormData_getAll n ((k, v) :: fd) =
  (if String.eqb k n then [v] else []) ++ FormData_getAll n fd.
Proof. unfold FormData_getAll. simpl. now destruct (String.eqb k n). Qed.

Lemma serialize_entries_throw (es : FormData) (obj : list (string * list string)) :
  (forall n, In n (map fst obj) -> inherited n = false) ->
  (exists e, In e (string_entries es) /\ inherited (fst e) = true) ->
  serialize_entries es obj = Throw (TypeError "obj[key].push is not a function").
Proof.
  revert obj. induction es as [|[k entry] es IH]; intros obj Hkeys (e & Hin & Hbad).
  - destruct Hin.
  - destruct entry as [s|file].
    + destruct (inherited k) eqn:Hk.
      * simpl. rewrite serialize_entry_inherited; [reflexivity | exact Hk |].
        apply obj_get_None. intros Hown. apply Hkeys in Hown. congruence.
      * destruct (serialize_entry_get obj k s Hk) as (obj1 & Hstep & Hget).
        simpl serialize_entries. rewrite Hstep. simpl. apply IH.
        -- intros n Hown. apply (proj1 (keys_get n obj1)) in Hown.
           rewrite Hget in Hown.
           destruct (String.eqb_spec k n) as [Hkn|Hkn]; [now subst n|].
           apply Hkeys. now apply (proj2 (keys_get n obj)).
        -- exists e. split; [|exact Hbad].
           unfold string_entries in Hin. simpl in Hin.
           destruct Hin as [<-|Hin]; [simpl in Hbad; congruence | exact Hin].
    + simpl. apply IH; [exact Hkeys|]. exists e. split; [exact Hin | exact Hbad].
Qed.

(** The names and arrays of the record, turn after turn. *)
Lemma serialize_entries_keys (es : FormData) (obj obj' : list (string * list string)) :
  plain_names es ->
  serialize_entries es obj = Normal obj' ->
  (forall n, In n (map fst obj') <->
             In n (map fst obj) \/ FormData_getAll n (string_entries es) <> []) /\
  ((forall n vs, obj_get n obj = Some vs -> vs <> []) ->
   forall n vs, obj_get n obj' = Some vs -> vs <> []).
Proof.
  revert obj. induction es as [|[k entry] es IH]; intros obj Hplain Hrun.
  - simpl in Hrun. injection Hrun as <-. split; [|auto].
    intros n. simpl. tauto.
  - destruct entry as [s|file].
    + assert (Hk : inherited k = false).
      { apply (Hplain (k, StringEntry s)). now left. }
      assert (Hrest : plain_names es).
      { intros e Hin. apply Hplain. now right. }
      destruct (serialize_entry_get obj k s Hk) as (obj1 & Hstep & Hget).
      simpl serialize_entries in Hrun. rewrite Hstep in Hrun. simpl in Hrun.
      destruct (IH obj1 Hrest Hrun) as (Hkeys & Hfull). split.
      * intros n. rewrite Hkeys. unfold string_entries. simpl.
        fold (string_entries es). rewrite getAll_cons.
        rewrite !keys_get, Hget.
        destruct (String.eqb_spec k n) as [<-|Hkn]; simpl.
        -- split; [intros _; right; discriminate | intros _; left; discriminate].
        -- reflexivity.
      * intros Hne. apply Hfull. intros n vs. rewrite Hget.
        destruct (String.eqb k n); [|apply Hne].
        intros [= <-]. now destruct (default [] (obj_get k obj)).
    + simpl in Hrun. apply (IH obj Hplain Hrun).
Qed.

Lemma plain_names_dec (x : FormData) :
  plain_names x \/ exists e, In e (string_entries x) /\ inherited (fst e) = true.
Proof.
  unfold plain_names. induction (string_entries x) as [|e l IH].
  - left. intros e [].
  - destruct (inherited (fst e)) eqn:He.
    + right. exists e. split; [now left | exact He].
    + destruct IH as [Hall | (e' & Hin & Hbad)].
      * left. intros e' [<-|Hin]; [exact He | now apply Hall].
      * right. exists e'. split; [now right | exact Hbad].
Qed.

(** A submission that serializes has no string field with an inherited
    name. *)
Lemma serialize_returns_plain (x : FormData) (obj : list (string * list string)) :
  serializeFormData x = Normal obj -> plain_names x.
Proof.
  intros Hrun. destruct (plain_names_dec x) as [Hplain | Hbad]; [exact Hplain|].
  unfold serializeFormData in Hrun.
  rewrite (serialize_entries_throw x []) in Hrun; [discriminate | intros n [] | exact Hbad].
Qed.

End SerializedRecord.

(** X9 -- [serializeFormData] throws exactly when some string field of the
    submission is named like a property that objects inherit
    ([constructor], [toString], ...), whatever else the submission holds,
    and what it throws is a [TypeError]; otherwise it returns a record.
    Files never make it throw. *)
Theorem serialize_throws_on_inherited_names (x : FormData) :
  ((exists err, serializeFormData x = Throw err) <->
   exists e, In e (string_entries x) /\ inherited (fst e) = true) /\
  (forall err, serializeFormData x = Throw err -> exists m, err = TypeError m) /\
  ((exists obj, serializeFormData x = Normal obj) <-> plain_names x).
Proof.
  assert (Hthrow : (exists e, In e (string_entries x) /\ inherited (fst e) = true) ->
                   serializeFormData x =
                   Throw (TypeError "obj[key].push is not a function")).
  { apply serialize_entries_throw. intros n []. }
  assert (Hret : plain_names x -> exists obj, serializeFormData x = Normal obj).
  { intros Hplain.
    destruct (serialize_entries_spec x [] Hplain (List.NoDup_nil _)) as (obj & Hrun & _).
    now exists obj. }
  split; [split|split; [|split]].
  - intros (err & Hrun). destruct (plain_names_dec x) as [Hplain | Hbad]; [|exact Hbad].
    destruct (Hret Hplain) as (obj & Hobj). congruence.
  - intros Hbad. eexists. now apply Hthrow.
  - intros err Hrun. now apply serialize_entries_throws in Hrun.
  - intros (obj & Hobj). destruct (plain_names_dec x) as [Hplain | Hbad]; [exact Hplain|].
    rewrite (Hthrow Hbad) in Hobj. discriminate.
  - exact Hret.
Qed.

(** X10 -- The record [serializeFormData] returns has each name once; under
    a name it holds exactly the string values the submission has under that
    name, in their order, and never an empty array; a name that has no
    string value, such as the name of an upload, is not a property of the
    record. *)
Theorem serialized_record_shape (x : FormData) (obj : list (string * list string))
    (Hrun : serializeFormData x = Normal obj) :
  List.NoDup (map fst obj) /\
  forall name,
    match obj_get name obj with
    | Some vs => vs <> [] /\
                 map StringEntry vs = FormData_getAll name (string_entries x)
    | None => FormData_getAll name (string_entries x) = []
    end.
Proof.
  assert (Hplain := serialize_returns_plain x obj Hrun).
  destruct (serialize_entries_spec x [] Hplain (List.NoDup_nil _))
    as (obj0 & Hrun0 & Hnd & Hget & _).
  unfold serializeFormData in Hrun. rewrite Hrun in Hrun0. injection Hrun0 as <-.
  destruct (serialize_entries_keys x [] obj Hplain Hrun) as (Hkeys & Hfull).
  split; [exact Hnd|]. intros name.
  specialize (Hget name). simpl in Hget.
  destruct (obj_get name obj) as [vs|] eqn:Hname.
  - split; [|exact Hget]. apply (Hfull ltac:(discriminate) name vs Hname).
  - destruct (FormData_getAll name (string_entries x)) as [|v l] eqn:Hall;
      [reflexivity|].
    exfalso. apply obj_get_None in Hname. apply Hname, Hkeys. right. discriminate.
Qed.

Lemma serialized_record_shape_witness :
  serializeFormData with_upload = Normal upload_record /\
  FormData_getAll "photo" (string_entries with_upload) = [] /\
  map StringEntry ["a"; "b"] = FormData_getAll "tags" (string_entries with_upload).
Proof.
  assert (Hrun : serializeFormData with_upload = Normal upload_record) by reflexivity.
  split; [exact Hrun|].
  destruct (serialized_record_shape with_upload upload_record Hrun) as (_ & Hshape).
  split; [exact (Hshape "photo") | exact (proj2 (Hshape "tags"))].
Defined.

(** * When the round trip is exact *)

Section RecordOrder.

Lemma insert_index_last {V : Type} (i : N) (k : string) (v : V) (o : list (string * V)) :
  forallb (fun n => match array_index n with
                    | Some j => (j <? i)%N
                    | None => false
                    end) (map fst o) = true ->
  obj_insert_index i k v o = o ++ [(k, v)].
Proof.
  induction o as [|[a w] o IH]; simpl; [reflexivity|].
  intros Hall. apply andb_true_iff in Hall as [Ha Ho].
  destruct (array_index a) as [j|]; [|discriminate].
  rewrite Ha. now rewrite IH.
Qed.

Lemma forallb_rev {A : Type} (p : A -> bool) (l : list A) :
  forallb p (rev l) = forallb p l.
Proof.
  induction l as [|x l IH]; simpl; [reflexivity|].
  rewrite forallb_app, IH. simpl. rewrite andb_true_r. apply andb_comm.
Qed.

(** A name that [appends_last] accepts is created behind all others. *)
Lemma define_last {V : Type} (k : string) (v : V) (o : list (string * V)) :
  appends_last (rev (map fst o)) k = true ->
  obj_define k v o = o ++ [(k, v)].
Proof.
  unfold appends_last, obj_define. destruct (array_index k) as [i|]; [|reflexivity].
  rewrite forallb_rev. apply insert_index_last.
Qed.

Lemma update_last {V : Type} (k : string) (v w : V) (o : list (string * V)) :
  obj_get k o = None ->
  obj_update k v (o ++ [(k, w)]) = o ++ [(k, v)].
Proof.
  induction o as [|[a u] o IH]; simpl; intros Hk.
  - now rewrite String.eqb_refl.
  - destruct (String.eqb a k); [discriminate|]. now rewrite IH.
Qed.

(** A turn of the loop on a field that has the name of the last property
    adds the field behind all entries of the record. *)
Lemma serialize_entry_same_name (obj : list (string * list string)) (k s : string)
    (recent : list string) :
  List.NoDup (map fst obj) ->
  rev (map fst obj) = k :: recent ->
  exists obj',
    serialize_entry obj (k, StringEntry s) = Normal obj' /\
    map fst obj' = map fst obj /\
    record_entries obj' = record_entries obj ++ [(k, StringEntry s)].
Proof.
  intros Hnd Hrev.
  assert (Hkeys : map fst obj = rev recent ++ [k]).
  { rewrite <- (rev_involutive (map fst obj)), Hrev. reflexivity. }
  destruct (exists_last (l := obj)) as (o & [k' arr] & ->).
  { intros ->. destruct (rev recent); discriminate. }
  rewrite map_app in Hkeys. simpl in Hkeys.
  apply app_inj_tail in Hkeys as [Ho ->].
  assert (Hk : obj_get k o = None).
  { apply obj_get_None. rewrite map_app in Hnd. simpl in Hnd.
    apply NoDup_remove_2 in Hnd. now rewrite app_nil_r in Hnd. }
  assert (Hget : obj_get k (o ++ [(k, arr)]) = Some arr).
  { rewrite obj_get_app, Hk. simpl. now rewrite String.eqb_refl. }
  unfold serialize_entry. simpl. rewrite Hget, Hget.
  unfold obj_set. rewrite Hget, (update_last k _ arr o Hk).
  eexists. split; [reflexivity|]. split.
  - now rewrite !map_app.
  - rewrite !record_entries_app, !record_entries_cons, map_app. simpl.
    now rewrite !app_nil_r, app_assoc.
Qed.

(** A turn of the loop on a field with a new name that becomes the last
    property adds the field behind all entries of the record. *)
Lemma serialize_entry_new_name (obj : list (string * list string)) (k s : string) :
  inherited k = false ->
  ~ In k (map fst obj) ->
  appends_last (rev (map fst obj)) k = true ->
  exists obj',
    serialize_entry obj (k, StringEntry s) = Normal obj' /\
    map fst obj' = map fst obj ++ [k] /\
    record_entries obj' = record_entries obj ++ [(k, StringEntry s)].
Proof.
  intros Hplain Hnew Hend.
  assert (Hk : obj_get k obj = None) by now apply obj_get_None.
  assert (Hdef : obj_set k [] obj = obj ++ [(k, [])]).
  { unfold obj_set. rewrite Hk. now apply define_last. }
  assert (Hget : obj_get k (obj ++ [(k, [])]) = Some []).
  { rewrite obj_get_app, Hk. simpl. now rewrite String.eqb_refl. }
  unfold serialize_entry. simpl. rewrite Hk, Hplain, Hdef, Hget.
  unfold obj_set. rewrite Hget, (update_last k _ [] obj Hk).
  eexists. split; [reflexivity|]. split.
  - now rewrite map_app.
  - rewrite record_entries_app, record_entries_cons. reflexivity.
Qed.

Lemma NoDup_snoc {A : Type} (k : A) (l : list A) :
  List.NoDup l -> ~ In k l -> List.NoDup (l ++ [k]).
Proof.
  intros Hnd Hnew. apply (Permutation_NoDup (Permutation_cons_append l k)).
  now constructor.
Qed.

(** A submission in record order is serialized entry behind entry. *)
Lemma serialize_entries_in_order (es : FormData) (obj : list (string * list string)) :
  forallb is_StringEntry es = true ->
  plain_names es ->
  List.NoDup (map fst obj) ->
  in_record_order (rev (map fst obj)) es = true ->
  exists obj',
    serialize_entries es obj = Normal obj' /\
    record_entries obj' = record_entries obj ++ es.
Proof.
  revert obj. induction es as [|[k entry] es IH]; intros obj Hstr Hplain Hnd Horder.
  - exists obj. split; [reflexivity | now rewrite app_nil_r].
  - simpl in Hstr. apply andb_true_iff in Hstr as [Hentry Hstr].
    destruct entry as [s|file]; [|discriminate].
    assert (Hrest : plain_names es).
    { intros e Hin. apply Hplain. now right. }
    assert (Hk : inherited k = false).
    { apply (Hplain (k, StringEntry s)). now left. }
    simpl in Horder.
    assert (Hstep : exists obj',
      serialize_entry obj (k, StringEntry s) = Normal obj' /\
      List.NoDup (map fst obj') /\
      in_record_order (rev (map fst obj')) es = true /\
      record_entries obj' = record_entries obj ++ [(k, StringEntry s)]).
    { destruct (rev (map fst obj)) as [|n recent] eqn:Hrev.
      - apply andb_true_iff in Horder as [Hfresh Horder].
        apply andb_true_iff in Hfresh as [_ Hend].
        assert (Hnil : map fst obj = []).
        { rewrite <- (rev_involutive (map fst obj)), Hrev. reflexivity. }
        destruct (serialize_entry_new_name obj k s Hk) as (obj' & Hrun & Hkeys & Hent).
        + rewrite Hnil. intros [].
        + now rewrite Hrev.
        + exists obj'. split; [exact Hrun|]. rewrite Hkeys, Hnil. simpl.
          split; [repeat constructor; intros []|]. split; [exact Horder | exact Hent].
      - destruct (String.eqb_spec n k) as [->|Hnk].
        + destruct (serialize_entry_same_name obj k s recent Hnd Hrev)
            as (obj' & Hrun & Hkeys & Hent).
          exists obj'. split; [exact Hrun|]. rewrite Hkeys, Hrev.
          split; [exact Hnd|]. split; [exact Horder | exact Hent].
        + apply andb_true_iff in Horder as [Hfresh Horder].
          apply andb_true_iff in Hfresh as [Hfresh Hend].
          assert (Hnew : ~ In k (map fst obj)).
          { intros Hin. apply in_rev in Hin. rewrite Hrev in Hin.
            apply negb_true_iff in Hfresh.
            assert (Hex : existsb (String.eqb k) (n :: recent) = true).
            { apply existsb_exists. exists k. split; [exact Hin | apply String.eqb_refl]. }
            congruence. }
          destruct (serialize_entry_new_name obj k s Hk Hnew) as (obj' & Hrun & Hkeys & Hent).
          * now rewrite Hrev.
          * exists obj'. split; [exact Hrun|]. rewrite Hkeys, rev_app_distr, Hrev. simpl.
            split; [|split; [exact Horder | exact Hent]].
            now apply NoDup_snoc. }
    destruct Hstep as (obj1 & Hrun1 & Hnd1 & Horder1 & Hent1).
    destruct (IH obj1 Hstr Hrest Hnd1 Horder1) as (obj' & Hrun & Hent).
    exists obj'. split; [simpl serialize_entries; now rewrite Hrun1|].
    rewrite Hent, Hent1, <- app_assoc. reflexivity.
Qed.

End RecordOrder.

Section Regrouped.

Lemma record_entries_In (e : string * FormDataEntryValue) (obj : list (string * list string)) :
  In e (record_entries obj) -> In (fst e) (map fst obj) /\ is_StringEntry e = true.
Proof.
  unfold record_entries. intros Hin. apply in_flat_map in Hin as ([k vs] & Hobj & Hin).
  apply in_map_iff in Hin as (v & <- & _). simpl. split; [|reflexivity].
  apply in_map_iff. now exists (k, vs).
Qed.

Lemma getAll_nonempty (n : string) (fd : FormData) :
  FormData_getAll n fd <> [] -> exists e, In e fd /\ fst e = n.
Proof.
  unfold FormData_getAll. intros Hne.
  destruct (List.filter (fun e => String.eqb (fst e) n) fd) as [|e l] eqn:Hf;
    [now elim Hne|].
  assert (Hin : In e (List.filter (fun e => String.eqb (fst e) n) fd)).
  { rewrite Hf. now left. }
  apply filter_In in Hin as [Hin Hname]. apply String.eqb_eq in Hname. eauto.
Qed.

(** The names of the record are names of string fields of the submission. *)
Lemma serialized_names (x : FormData) (obj : list (string * list string)) (n : string) :
  serializeFormData x = Normal obj ->
  In n (map fst obj) ->
  exists e, In e (string_entries x) /\ fst e = n.
Proof.
  intros Hrun Hin.
  destruct (serialize_entries_keys x [] obj (serialize_returns_plain x obj Hrun) Hrun)
    as (Hkeys & _).
  apply Hkeys in Hin as [[] | Hne]. now apply getAll_nonempty.
Qed.

(** Behind a field, the further fields of its name are in record order. *)
Lemma in_record_order_run (k : string) (recent : list string) (vs : list string)
    (rest : FormData) :
  in_record_order (k :: recent) (map (fun v => (k, StringEntry v)) vs ++ rest) =
  in_record_order (k :: recent) rest.
Proof.
  induction vs as [|v vs IH]; simpl; [reflexivity|].
  now rewrite String.eqb_refl.
Qed.

(** The entries of a record without array-index names are in record
    order. *)
Lemma record_entries_in_order (obj : list (string * list string)) (recent : list string) :
  List.NoDup (map fst obj) ->
  (forall n, In n (map fst obj) -> ~ In n recent /\ array_index n = None) ->
  in_record_order recent (record_entries obj) = true.
Proof.
  revert recent. induction obj as [|[k vs] obj IH]; intros recent Hnd Hkeys;
    [reflexivity|].
  simpl in Hnd. inversion Hnd as [|? ? Hk Hnd']; subst.
  destruct (Hkeys k ltac:(now left)) as [Hfresh Hindex].
  rewrite record_entries_cons. destruct vs as [|v vs]; simpl.
  - apply (IH recent Hnd'). intros n Hin. apply Hkeys. now right.
  - assert (Hhead : match recent with
                    | n :: _ => String.eqb n k
                    | [] => false
                    end = false).
    { destruct recent as [|n recent]; [reflexivity|].
      apply String.eqb_neq. intros ->. apply Hfresh. now left. }
    rewrite Hhead.
    assert (Hex : existsb (String.eqb k) recent = false).
    { destruct (existsb (String.eqb k) recent) eqn:Hex; [|reflexivity].
      apply existsb_exists in Hex as (n & Hin & Heq).
      apply String.eqb_eq in Heq. subst n. contradiction. }
    rewrite Hex. unfold appends_last. rewrite Hindex. simpl.
    rewrite in_record_order_run. apply (IH (k :: recent) Hnd').
    intros n Hin. destruct (Hkeys n ltac:(now right)) as [Hn Hi].
    split; [|exact Hi]. intros [<-|Hrec]; contradiction.
Qed.

End Regrouped.

(** X11 -- The round trip is exact on a submission of string fields in
    record order: when no field is named like an inherited property, and
    each field has the name of the field before it or a new name that
    becomes the last property of the record (as every name does that is no
    array index), [deserializeFormData] of [serializeFormData(x)] is [x]
    itself, entry for entry. *)
Theorem round_trip_in_record_order (x : FormData)
    (Hstr : forallb is_StringEntry x = true)
    (Hplain : plain_names x)
    (Horder : in_record_order [] x = true) :
  exists obj,
    serializeFormData x = Normal obj /\
    deserializeFormData (Record_to_JSON obj) = Normal x.
Proof.
  destruct (serialize_entries_in_order x [] Hstr Hplain (List.NoDup_nil _) Horder)
    as (obj & Hrun & Hent).
  exists obj. split; [exact Hrun|]. rewrite deserialize_record, Hent. reflexivity.
Qed.

Lemma round_trip_in_record_order_witness :
  exists obj,
    serializeFormData two_tags = Normal obj /\
    deserializeFormData (Record_to_JSON obj) = Normal two_tags.
Proof.
  apply (round_trip_in_record_order two_tags); [reflexivity | | reflexivity].
  intros e Hin. simpl in Hin. destruct Hin as [<-|[<-|[<-|[]]]]; reflexivity.
Defined.

(** X12 -- A second round trip changes nothing: for a submission whose
    string fields have no array-index names, the form that
    [deserializeFormData] makes of [serializeFormData(x)] serializes again,
    and deserializing that gives the same form, entry for entry. *)
Theorem round_trip_twice (x : FormData) (obj : list (string * list string))
    (Hrun : serializeFormData x = Normal obj)
    (Hnames : forallb plain_order_name (string_entries x) = true) :
  deserializeFormData (Record_to_JSON obj) = Normal (record_entries obj) /\
  exists obj',
    serializeFormData (record_entries obj) = Normal obj' /\
    deserializeFormData (Record_to_JSON obj') = Normal (record_entries obj).
Proof.
  split; [apply deserialize_record|].
  assert (Hplain := serialize_returns_plain x obj Hrun).
  destruct (serialize_entries_spec x [] Hplain (List.NoDup_nil _))
    as (obj0 & Hrun0 & Hnd & _).
  unfold serializeFormData in Hrun. rewrite Hrun in Hrun0. injection Hrun0 as <-.
  destruct (serialize_entries_in_order (record_entries obj) []) as (obj' & Hrun' & Hent).
  - apply forallb_forall. intros e Hin. now apply record_entries_In in Hin.
  - intros e Hin. apply filter_In in Hin as [Hin _].
    apply record_entries_In in Hin as [Hin _].
    destruct (serialized_names x obj (fst e) Hrun Hin) as (e' & Hin' & <-).
    now apply Hplain.
  - constructor.
  - apply record_entries_in_order; [exact Hnd|].
    intros n Hin. split; [intros []|].
    destruct (serialized_names x obj n Hrun Hin) as (e' & Hin' & <-).
    assert (He := proj1 (forallb_forall _ _) Hnames e' Hin').
    unfold plain_order_name in He. now destruct (array_index (fst e')).
  - exists obj'. split; [exact Hrun'|].
    rewrite deserialize_record, Hent. reflexivity.
Qed.

Lemma round_trip_twice_witness :
  serializeFormData alternating = Normal [("a", ["1"; "3"]); ("b", ["2"])] /\
  exists obj',
    serializeFormData (record_entries [("a", ["1"; "3"]); ("b", ["2"])]) = Normal obj' /\
    deserializeFormData (Record_to_JSON obj') =
      Normal (record_entries [("a", ["1"; "3"]); ("b", ["2"])]).
Proof.
  assert (Hrun : serializeFormData alternating = Normal [("a", ["1"; "3"]); ("b", ["2"])])
    by reflexivity.
  split; [exact Hrun|].
  apply (round_trip_twice alternating _ Hrun). reflexivity.
Defined.

(** * From one request to the next *)

Section NextRequest.

Lemma find_app_none {A : Type} (p : A -> bool) (l1 l2 : list A) :
  find p l1 = None -> find p (l1 ++ l2) = find p l2.
Proof.
  induction l1 as [|x l1 IH]; simpl; [reflexivity|].
  destruct (p x); [discriminate | exact IH].
Qed.

Lemma find_app_some {A : Type} (p : A -> bool) (l1 l2 : list A) (x : A) :
  find p l1 = Some x -> find p (l1 ++ l2) = Some x.
Proof.
  induction l1 as [|y l1 IH]; simpl; [discriminate|].
  destruct (p y); [trivial | exact IH].
Qed.

(** [getInputs] reads the first snapshot of a valid container. *)
Lemma getInputs_first (s : FlashStore.t) (iv : FlashValue) :
  valid (FlashStore.current s) = true ->
  find (fun fv => FlashStore.is_inputs_key (key fv)) (values (FlashStore.current s)) =
    Some iv ->
  FlashStore.getInputs s =
  (do fd <- deserializeFormData (value iv); Normal (Some fd)).
Proof.
  intros Hvalid Hfind. unfold FlashStore.getInputs. now rewrite Hvalid, Hfind.
Qed.

Lemma has_getAll (n : string) (fd : FormData) :
  FormData_has n fd =
  match FormData_getAll n fd with
  | [] => false
  | _ :: _ => true
  end.
Proof.
  unfold FormData_has, FormData_getAll.
  induction fd as [|e fd IH]; simpl; [reflexivity|].
  destruct (String.eqb (fst e) n); simpl; [reflexivity | exact IH].
Qed.

Lemma js_ToString_stringable (v : JSONValue) :
  if stringable v
  then exists text, js_ToString v = Normal text
  else exists m, js_ToString v = Throw (TypeError m).
Proof.
  induction v as [| [|] | text | s | items IH | props _] using JSONValue_induction;
    simpl; eauto.
  - match goal with |- context [bind (?join items) _] => set (J := join) end.
    assert (Hjoin : if forallb stringable items
                    then exists texts, J items = Normal texts
                    else exists m, J items = Throw (TypeError m)).
    { induction IH as [|x items Hx _ IHl]; simpl; eauto.
      assert (Hhead : if stringable x
                then exists t, match x with JNull => Normal "" | _ => js_ToString x end
                               = Normal t
                else exists m, match x with JNull => Normal "" | _ => js_ToString x end
                               = Throw (TypeError m)).
      { destruct x; simpl; eauto; exact Hx. }
      destruct (stringable x); simpl.
      - destruct Hhead as (t & ->). simpl.
        destruct (forallb stringable items).
        + destruct IHl as (ts & ->). simpl. eauto.
        + destruct IHl as (m & ->). simpl. eauto.
      - destruct Hhead as (m & ->). simpl. eauto. }
    destruct (forallb stringable items).
    + destruct Hjoin as (ts & ->). simpl. eauto.
    + destruct Hjoin as (m & ->). simpl. eauto.
  - destruct (obj_get "toString" props); eauto.
Qed.

Lemma chars_stringable (s : string) : forallb stringable (chars_of s) = true.
Proof.
  unfold chars_of. induction (list_ascii_of_string s) as [|c cs IH]; simpl; auto.
Qed.

Lemma append_values_of_stringable (name : string) (vs : list JSONValue) (fd : FormData) :
  if forallb stringable vs
  then exists fd', append_values_of name vs fd = Normal fd'
  else exists m, append_values_of name vs fd = Throw (TypeError m).
Proof.
  revert fd. induction vs as [|w vs IH]; intros fd; simpl; eauto.
  assert (Hw := js_ToString_stringable w).
  destruct (stringable w); simpl.
  - destruct Hw as (text & ->). simpl. apply IH.
  - destruct Hw as (m & ->). simpl. eauto.
Qed.

Lemma deserialize_props_appendable (props : list (string * JSONValue)) (fd : FormData) :
  if existsb (fun p => negb (appendable (snd p))) props
  then exists m, deserialize_props props fd = Throw (TypeError m)
  else exists fd', deserialize_props props fd = Normal fd'.
Proof.
  revert fd. induction props as [|[name v] props IH]; intros fd; simpl; eauto.
  assert (Hloop : forall vs, for_of v = Normal vs ->
    if negb (forallb stringable vs) || existsb (fun p => negb (appendable (snd p))) props
    then exists m, (do formData' <- append_values_of name vs fd;
                    deserialize_props props formData') = Throw (TypeError m)
    else exists fd', (do formData' <- append_values_of name vs fd;
                      deserialize_props props formData') = Normal fd').
  { intros vs _. assert (Happ := append_values_of_stringable name vs fd).
    destruct (forallb stringable vs); simpl.
    - destruct Happ as (fd' & ->). simpl. apply IH.
    - destruct Happ as (m & ->). simpl. eauto. }
  destruct v; simpl; eauto.
  - specialize (Hloop _ eq_refl). now rewrite chars_stringable in Hloop.
  - exact (Hloop _ eq_refl).
Qed.

End NextRequest.

(** X13 -- What one request commits, the next request reads: on a runtime
    whose [JSON.parse] reads back what its [JSON.stringify] wrote for
    [next], [commit] appends one cookie under the store's cookie name, and
    a store constructed on a request that brings this cookie back has the
    committed [next] as its [current] and an empty, invalid [next]. *)
Theorem committed_next_is_read `{JSONRuntime} (s : FlashStore.t) (c2 : HonoContext)
    (Hvalid : valid (FlashStore.next s) = true)
    (Hcodec : JSON_parse (JSON_stringify (Flash_to_JSON (FlashStore.next s))) =
              Some (Flash_to_JSON (FlashStore.next s)))
    (Htext : JSON_stringify (Flash_to_JSON (FlashStore.next s)) <> "")
    (Hback : getCookie c2 (FlashStore.cookieName s) =
             Some (JSON_stringify (Flash_to_JSON (FlashStore.next s)))) :
  (exists sent,
     res_cookies (FlashStore.context (FlashStore.commit s)) =
       res_cookies (FlashStore.context s) ++ [sent] /\
     sc_name sent = FlashStore.cookieName s /\
     getCookie c2 (sc_name sent) = Some (sc_value sent)) /\
  exists s2,
    FlashStore.new c2 (FlashStore.cookieName s) = Normal s2 /\
    FlashStore.current s2 = FlashStore.next s /\
    FlashStore.next s2 = {| values := []; valid := false |}.
Proof.
  split.
  - exists (flash_cookie (FlashStore.cookieName s) (FlashStore.next s)).
    rewrite (commit_valid s Hvalid). repeat split. exact Hback.
  - destruct (committed_cookie_is_read _ c2 _ Hcodec Htext Hback) as (s2 & Hnew & Hcur).
    destruct (new_total c2 (FlashStore.cookieName s)) as (s2' & Hnew' & _ & Hnext & _).
    rewrite Hnew in Hnew'. injection Hnew' as <-.
    exists s2. repeat split; assumption.
Qed.

Lemma committed_next_is_read_witness :
  exists s2,
    FlashStore.new
      (request_with_cookie "flash" (JSON_stringify (Flash_to_JSON too_short))) "flash" =
      Normal s2 /\
    FlashStore.current s2 = too_short.
Proof.
  destruct (committed_next_is_read
              (store_with FlashStore.empty (values too_short))
              (request_with_cookie "flash" (JSON_stringify (Flash_to_JSON too_short))))
    as (_ & s2 & Hnew & Hcur & _).
  - reflexivity.
  - vm_compute. reflexivity.
  - vm_compute. discriminate.
  - reflexivity.
  - exists s2. split; [exact Hnew | exact Hcur].
Defined.

(** X14 -- Input replay: when the request carries the form [x], no string
    field of which has an inherited name, and no input snapshot is queued
    yet, [flashInputs] returns, and every store whose [current] is the
    resulting [next] (the store of the next request) replays [x]:
    [getInputs] returns a form that has under every name the string values
    of [x], in their order. *)
Theorem inputs_are_replayed (s : FlashStore.t) (x : FormData)
    (Hform : req_formData (FlashStore.context s) = Some x)
    (Hplain : plain_names x)
    (Hfirst : find (fun fv => FlashStore.is_inputs_key (key fv))
                (values (FlashStore.next s)) = None) :
  exists s1,
    FlashStore.flashInputs s = Normal s1 /\
    forall s2, FlashStore.current s2 = FlashStore.next s1 -> replays x s2.
Proof.
  destruct (serialize_entries_spec x [] Hplain (List.NoDup_nil _))
    as (obj & Hrun & Hnd & Hget & _).
  unfold FlashStore.flashInputs, FlashStore.formData. rewrite Hform. simpl.
  unfold serializeFormData. rewrite Hrun. simpl.
  eexists. split; [reflexivity|].
  intros s2 Hcur. exists (record_entries obj). split.
  - rewrite (getInputs_first s2 {| key := ["inputs"]; value := Record_to_JSON obj |}).
    + simpl value. now rewrite deserialize_record.
    + now rewrite Hcur.
    + rewrite Hcur. simpl. now rewrite (find_app_none _ _ _ Hfirst).
  - intros name. rewrite (getAll_record name obj Hnd), Hget. reflexivity.
Qed.

Lemma inputs_are_replayed_witness :
  exists s1,
    FlashStore.flashInputs
      {| FlashStore.context := upload_request; FlashStore.cookieName := "flash";
         FlashStore.current := FlashStore.empty; FlashStore.next := FlashStore.empty |} =
      Normal s1 /\
    replays with_upload (store_reading (FlashStore.next s1)).
Proof.
  destruct (inputs_are_replayed
              {| FlashStore.context := upload_request; FlashStore.cookieName := "flash";
                 FlashStore.current := FlashStore.empty;
                 FlashStore.next := FlashStore.empty |} with_upload)
    as (s1 & Hrun & Hreplay).
  - reflexivity.
  - intros e Hin. simpl in Hin. destruct Hin as [<-|[<-|[<-|[]]]]; reflexivity.
  - reflexivity.
  - exists s1. split; [exact Hrun|]. now apply Hreplay.
Defined.

(** X15 -- The first snapshot wins: when [reflash()] without options carries
    an input snapshot forward and [flashInputs()] is called after it, the
    next request's [getInputs] returns the carried, older inputs, as this
    request's [getInputs] does, and not the form just submitted. *)
Theorem carried_inputs_shadow_new (s s1 s2 : FlashStore.t) (iv : FlashValue)
    (Hvalid : valid (FlashStore.current s) = true)
    (Hold : find (fun fv => FlashStore.is_inputs_key (key fv))
              (values (FlashStore.current s)) = Some iv)
    (Hqueue : find (fun fv => FlashStore.is_inputs_key (key fv))
                (values (FlashStore.next s)) = None)
    (Hrun : FlashStore.flashInputs (FlashStore.reflash no_options s) = Normal s1)
    (Hread : FlashStore.current s2 = FlashStore.next s1) :
  FlashStore.getInputs s2 = FlashStore.getInputs s.
Proof.
  rewrite (getInputs_first s iv Hvalid Hold).
  unfold FlashStore.flashInputs in Hrun.
  destruct (FlashStore.formData _) as [fd|e]; simpl in Hrun; [|discriminate].
  destruct (serializeFormData fd) as [obj|e]; simpl in Hrun; [|discriminate].
  injection Hrun as <-. simpl in Hread.
  apply getInputs_first; rewrite Hread; [reflexivity|]. simpl.
  rewrite filterFlashValues_all, <- app_assoc, (find_app_none _ _ _ Hqueue).
  now apply find_app_some.
Qed.

Lemma carried_inputs_shadow_new_witness :
  exists s1,
    FlashStore.flashInputs (FlashStore.reflash no_options upload_store) = Normal s1 /\
    FlashStore.getInputs (store_reading (FlashStore.next s1)) = Normal (Some alice).
Proof.
  eexists. split; [reflexivity|].
  erewrite (carried_inputs_shadow_new upload_store); reflexivity.
Defined.

(** X16 -- [getInputs] throws exactly when the container is valid and the
    first snapshot in it has a property whose value the inner loop of
    [deserializeFormData] does not accept: a value that can not be iterated
    (neither an array nor a string), or an array with an item that has no
    text (an object with an own [toString] property, or an array that holds
    one).  What it throws then is a [TypeError]: [isFlash] does not check
    what is stored under [inputs]. *)
Theorem getInputs_throws_on_ill_typed (s : FlashStore.t) :
  ((exists e, FlashStore.getInputs s = Throw e) <->
   valid (FlashStore.current s) = true /\
   exists iv,
     find (fun fv => FlashStore.is_inputs_key (key fv)) (values (FlashStore.current s)) =
       Some iv /\
     existsb (fun p => negb (appendable (snd p))) (for_in (value iv)) = true) /\
  (forall e, FlashStore.getInputs s = Throw e -> exists m, e = TypeError m).
Proof.
  split; [|intros e; apply store_getInputs_throws].
  unfold FlashStore.getInputs.
  destruct (valid (FlashStore.current s)); simpl.
  2: { split; [intros [e He]; discriminate | intros [? _]; discriminate]. }
  destruct (find _ _) as [iv|].
  2: { split; [intros [e He]; discriminate | intros (_ & iv & ? & _); discriminate]. }
  unfold deserializeFormData.
  assert (Hiter := deserialize_props_appendable (for_in (value iv)) []).
  destruct (existsb _ (for_in (value iv))) eqn:Hbad.
  - destruct Hiter as (m & ->). simpl. split; [|intros _; eexists; reflexivity].
    intros _. split; [reflexivity|].
    exists iv. split; [reflexivity | exact Hbad].
  - destruct Hiter as (fd & ->). simpl.
    split; [intros [e He]; discriminate|].
    intros (_ & iv' & [= <-] & Hbad'). congruence.
Qed.

(** A snapshot with an array under the name [a] whose one item is an object
    with an own [toString] property: the array is iterated, the item has no
    text. *)
Example getInputs_own_toString :
  FlashStore.getInputs
    (store_reading
       {| valid := true;
          values :=
            [ {| key := ["inputs"];
                 value := JObject [("a", JArray [JObject [("toString", JNumber "1")]])]
              |} ] |}) =
  Throw (TypeError "Cannot convert object to primitive value").
Proof. reflexivity. Qed.

(** * The old-input helpers *)

Section OldInputs.

Lemma get_getAll (n : string) (fd : FormData) :
  FormData_get n fd = head (FormData_getAll n fd).
Proof. reflexivity. Qed.

Lemma includes_has (n v : string) (fd : FormData) :
  includes v (FormData_getAll n fd) = true -> FormData_has n fd = true.
Proof.
  rewrite has_getAll. destruct (FormData_getAll n fd); [discriminate | reflexivity].
Qed.

(** The three helpers on a bound store, by what [getInputs] returns. *)
Lemma old_bound (name : string) (store : FlashStore.t) (fd : FormData) :
  FlashStore.getInputs store = Normal (Some fd) ->
  old name (Some store) = Normal (FormData_get name fd) /\
  oldChecked name (Some store) = Normal (Some (FormData_has name fd)) /\
  forall v, oldSelected name v (Some store) =
            Normal (Some (includes v (FormData_getAll name fd))).
Proof.
  intros Hget. unfold old, oldChecked, oldSelected. simpl. rewrite Hget.
  repeat split.
Qed.

Lemma old_unbound_inputs (name : string) (store : FlashStore.t) :
  FlashStore.getInputs store = Normal None ->
  old name (Some store) = Normal None /\
  oldChecked name (Some store) = Normal None /\
  forall v, oldSelected name v (Some store) = Normal None.
Proof.
  intros Hget. unfold old, oldChecked, oldSelected. simpl. rewrite Hget.
  repeat split.
Qed.

End OldInputs.

(** X17 -- The helpers agree with one another: [old(name)] returns a value
    exactly when [oldChecked(name)] returns true; [oldSelected(name, v)]
    returning true implies [oldChecked(name)] returning true; and
    [oldChecked] returns [undefined] exactly when [oldSelected] does, in
    which case [old] returns [undefined] too. *)
Theorem old_helpers_agree (name v : string) (scope : option FlashStore.t) :
  ((exists e, old name scope = Normal (Some e)) <->
   oldChecked name scope = Normal (Some true)) /\
  (oldSelected name v scope = Normal (Some true) ->
   oldChecked name scope = Normal (Some true)) /\
  (oldChecked name scope = Normal None <-> oldSelected name v scope = Normal None) /\
  (oldChecked name scope = Normal None -> old name scope = Normal None).
Proof.
  destruct scope as [store|].
  2: { repeat split; try discriminate. intros [e He]. discriminate. }
  destruct (FlashStore.getInputs store) as [[fd|]|err] eqn:Hget.
  - destruct (old_bound name store fd Hget) as (-> & -> & Hsel). rewrite Hsel.
    rewrite get_getAll, has_getAll.
    split; [|split; [|split]].
    + destruct (FormData_getAll name fd) as [|e l]; simpl.
      * split; [intros [e He]; discriminate | discriminate].
      * split; [reflexivity | intros _; now exists e].
    + intros [= Hinc]. destruct (FormData_getAll name fd); [discriminate | reflexivity].
    + split; discriminate.
    + discriminate.
  - destruct (old_unbound_inputs name store Hget) as (-> & -> & Hsel). rewrite Hsel.
    repeat split; try discriminate. intros [e He]. discriminate.
  - unfold old, oldChecked, oldSelected. simpl. rewrite Hget. simpl.
    repeat split; try discriminate. intros [e He]. discriminate.
Qed.

(** X18 -- On a store that replays the submission [x], the helpers and the
    attribute objects show what was submitted and ignore their defaults:
    [old(name)] is the first string value of [name] in [x]; a text input
    and a textarea take it as value, and their default only when [x] has no
    such field; a checkbox of a group is checked and an option selected
    exactly when [x] has the value under the name. *)
Theorem replayed_inputs_fill_the_form
    (x : FormData) (s : FlashStore.t) (name v : string)
    (d : option string) (b : option bool)
    (Hreplay : replays x s) :
  old name (Some s) = Normal (FormData_get name (string_entries x)) /\
  textInputProps name d (Some s) =
    Normal {| text_type := "text"; text_name := name; text_id := name;
              text_value := default (StringEntry (default "" d))
                              (FormData_get name (string_entries x)) |} /\
  textareaProps name d (Some s) =
    Normal {| textarea_name := name; textarea_id := name;
              textarea_value := default (StringEntry (default "" d))
                                  (FormData_get name (string_entries x)) |} /\
  checkboxGroupInputProps name v b (Some s) =
    Normal {| group_type := "checkbox"; group_name := name;
              group_id := String.append name (String.append "-" v);
              group_value := v;
              group_checked :=
                includes v (FormData_getAll name (string_entries x)) |} /\
  selectOptionProps name v b (Some s) =
    Normal {| option_value := v;
              option_id := String.append name (String.append "-option-" v);
              option_selected :=
                includes v (FormData_getAll name (string_entries x)) |}.
Proof.
  destruct Hreplay as (fd & Hget & Hsame).
  destruct (old_bound name s fd Hget) as (Hold & Hchecked & Hselected).
  assert (Hfirst : FormData_get name fd = FormData_get name (string_entries x)).
  { now rewrite !get_getAll, Hsame. }
  unfold textInputProps, textareaProps, checkboxGroupInputProps, selectOptionProps.
  rewrite Hold, Hselected, Hfirst, Hsame. simpl.
  repeat split.
Qed.

(** After the submission [name=Alice], the text input [name] shows
    [Alice] and not its default. *)
Lemma replayed_inputs_fill_the_form_witness :
  replays alice (store_reading alice_inputs) /\
  textInputProps "name" (Some "Bob") (Some (store_reading alice_inputs)) =
    Normal {| text_type := "text"; text_name := "name"; text_id := "name";
              text_value := StringEntry "Alice" |}.
Proof.
  assert (Hreplay : replays alice (store_reading alice_inputs)).
  { exists alice. split; reflexivity. }
  split; [exact Hreplay|].
  destruct (replayed_inputs_fill_the_form alice (store_reading alice_inputs)
              "name" "" (Some "Bob") None Hreplay) as (_ & Htext & _).
  exact Htext.
Defined.

(** X19 -- On a request whose flash cookie is absent or unusable, and under
    a cookie name that Hono's serializer accepts, the store the constructor
    returns has nothing to replay, and the attribute objects fall back on
    their defaults: a text input and a textarea take the default value or
    the empty string, checkboxes and options the default state or false. *)
Theorem defaults_fill_the_form `{JSONRuntime} `{CookieSerializer}
    (c : HonoContext) (cookie name v : string) (d : option string) (b : option bool)
    (Hname : serialize_error cookie = None)
    (Hbad : unusable_cookie c cookie) :
  exists s,
    FlashStore.construct c cookie = Normal s /\
    old name (Some s) = Normal None /\
    textInputProps name d (Some s) =
      Normal {| text_type := "text"; text_name := name; text_id := name;
                text_value := StringEntry (default "" d) |} /\
    textareaProps name d (Some s) =
      Normal {| textarea_name := name; textarea_id := name;
                textarea_value := StringEntry (default "" d) |} /\
    checkboxInputProps name b (Some s) =
      Normal {| checkbox_type := "checkbox"; checkbox_name := name; checkbox_id := name;
                checkbox_checked := default false b |} /\
    checkboxGroupInputProps name v b (Some s) =
      Normal {| group_type := "checkbox"; group_name := name;
                group_id := String.append name (String.append "-" v);
                group_value := v; group_checked := default false b |} /\
    selectOptionProps name v b (Some s) =
      Normal {| option_value := v;
                option_id := String.append name (String.append "-option-" v);
                option_selected := default false b |}.
Proof.
  destruct (new_total c cookie) as (s & Hnew & _).
  assert (Hcur := new_unusable c cookie s Hnew Hbad).
  assert (Hnone : FlashStore.getInputs s = Normal None).
  { apply getInputs_invalid. now rewrite Hcur. }
  destruct (old_unbound_inputs name s Hnone) as (Hold & Hchecked & Hselected).
  exists s. split; [now rewrite (construct_accepted c cookie Hname)|].
  split; [exact Hold|].
  unfold textInputProps, textareaProps, checkboxInputProps, checkboxGroupInputProps,
    selectOptionProps.
  rewrite Hold, Hchecked, Hselected. simpl. repeat split.
Qed.

Lemma defaults_fill_the_form_witness :
  serialize_error "flash" = None /\
  unusable_cookie bare_request "flash" /\
  exists s,
    FlashStore.construct bare_request "flash" = Normal s /\
    textInputProps "name" (Some "Bob") (Some s) =
      Normal {| text_type := "text"; text_name := "name"; text_id := "name";
                text_value := StringEntry "Bob" |}.
Proof.
  assert (Hname : serialize_error "flash" = None) by reflexivity.
  assert (Hbad : unusable_cookie bare_request "flash") by (left; reflexivity).
  split; [exact Hname|]. split; [exact Hbad|].
  destruct (defaults_fill_the_form bare_request "flash" "name" "" (Some "Bob") None
              Hname Hbad)
    as (s & Hnew & _ & Htext & _).
  exists s. split; [exact Hnew | exact Htext].
Defined.

(** * The middleware and the test context *)

Section Lifecycle.
Context `{JSONRuntime}.


End Lifecycle.


(** X21 -- The test context's headers: a header that was set reads back as
    its value, except that an empty value reads back as [null]; setting a
    header changes no other header, the later of two values for a name
    wins, and a new context has no header. *)
Theorem mock_headers (m : MockContext.t) (name other value value' : string) :
  MockContext.get name (MockContext.header name value m) =
    (if String.eqb value "" then None else Some value) /\
  (other <> name ->
   MockContext.get other (MockContext.header name value m) = MockContext.get other m) /\
  MockContext.header name value' (MockContext.header name value m) =
    MockContext.header name value' m /\
  MockContext.get name MockContext.new = None.
Proof.
  unfold MockContext.get, MockContext.header, MockContext.new. simpl.
  split; [now rewrite lookup_insert_eq|].
  split; [intros Hne; now rewrite lookup_insert_ne|].
  split; [now rewrite insert_insert_eq | now rewrite lookup_empty].
Qed.

(** * Filters of each shape, and reading what was flashed *)

Section FilterShapes.

Lemma every_refl (k : list string) : every (part_matches k) k = true.
Proof. now apply every_prefix. Qed.

Lemma filter_snoc {A : Type} (p : A -> bool) (l : list A) (x : A) :
  List.filter p (l ++ [x]) = List.filter p l ++ (if p x then [x] else []).
Proof. rewrite List.filter_app. simpl. now destruct (p x). Qed.

End FilterShapes.

(** X22 -- The three shapes of a filter: a string is the one-segment path,
    matched by the keys that start with it; a flat list of strings is one
    path of several segments, not several keys, and matches the keys it is
    a prefix of when it is not empty; a list of paths matches the keys that
    some path is a prefix of; the empty list matches no key. *)
Theorem filter_shapes (k : list string) (seg : string) (path : list string)
    (paths : list (list string)) :
  (checkKeyAgainstFilters k (FKey (KString seg)) = true <-> head k = Some seg) /\
  (checkKeyAgainstFilters k (FKey (KArray path)) = true <->
     path <> [] /\ path `prefix_of` k) /\
  (checkKeyAgainstFilters k (FNested paths) = true <->
     exists p, In p paths /\ p `prefix_of` k) /\
  checkKeyAgainstFilters k (FNested []) = false.
Proof.
  assert (Hsome : forall filters,
    checkKeyAgainstFilters k filters = true <->
    exists p, In p (normalizeFilters filters) /\ p `prefix_of` k).
  { intros filters. rewrite checkKey_matches_some. unfold matches_some.
    rewrite <- normalizeFilters_paths.
    split; intros (p & Hin & Hp); exists p; split; auto; now apply path_prefix_iff. }
  split; [|split; [|split; [|reflexivity]]].
  - rewrite Hsome. simpl. split.
    + intros (p & [<-|[]] & Hp). destruct k as [|a k]; simpl.
      * apply prefix_nil_inv in Hp. discriminate.
      * now apply prefix_cons_inv_1 in Hp as ->.
    + intros Hhead. exists [seg]. split; [now left|].
      destruct k as [|a k]; [discriminate|]. injection Hhead as ->.
      apply prefix_cons, prefix_nil.
  - rewrite Hsome. destruct path as [|a path]; simpl.
    + split; [intros (p & [] & _) | intros [Hne _]; now elim Hne].
    + split.
      * intros (p & [<-|[]] & Hp). split; [discriminate | exact Hp].
      * intros [_ Hp]. eexists. split; [now left | exact Hp].
  - rewrite Hsome. now destruct paths.
Qed.

(** X23 -- What is flashed is read in the next request: for a store whose
    [current] is the [next] left by [flash(k, v)], [get] with [k], or with
    any path that is a prefix of the key, returns what it returned for the
    values queued before, followed by [v]. *)
Theorem flashed_value_is_read (s s' s2 : FlashStore.t) (k : KeyArg) (v : JSONValue)
    (p : list string)
    (Hbefore : FlashStore.current s' = FlashStore.next s)
    (Hread : FlashStore.current s2 = FlashStore.next (FlashStore.flash k v s))
    (Hprefix : p `prefix_of` flat_key k) :
  exists ws,
    FlashStore.get (Some (KArray p)) s' = MatchingValues ws /\
    FlashStore.get (Some (KArray p)) s2 = MatchingValues (ws ++ [v]) /\
    exists ws',
      FlashStore.get (Some k) s' = MatchingValues ws' /\
      FlashStore.get (Some k) s2 = MatchingValues (ws' ++ [v]).
Proof.
  assert (Hstep : forall path, path `prefix_of` flat_key k ->
    FlashStore.get (Some (KArray path)) s2 =
    match FlashStore.get (Some (KArray path)) s' with
    | MatchingValues ws => MatchingValues (ws ++ [v])
    | WholeFlash f => WholeFlash f
    end).
  { intros path Hpath. simpl. rewrite Hread, Hbefore. simpl.
    rewrite filter_snoc, map_app. simpl.
    replace (every (part_matches ("ext" :: flat_key k)) ("ext" :: path)) with true;
      [reflexivity|].
    symmetry. apply every_prefix. now apply prefix_cons. }
  eexists. split; [reflexivity|]. split; [now rewrite (Hstep p Hprefix)|].
  eexists. split; [reflexivity|].
  assert (Hk : forall st, FlashStore.get (Some k) st =
                          FlashStore.get (Some (KArray (flat_key k))) st) by reflexivity.
  rewrite (Hk s2), (Hstep (flat_key k)); reflexivity.
Qed.

Lemma flashed_value_is_read_witness :
  FlashStore.get (Some (KArray ["form"]))
    (store_reading
       (FlashStore.next
          (FlashStore.flash (KArray ["form"; "errors"]) (JString "too short")
             (store_reading FlashStore.empty)))) =
  MatchingValues [JString "too short"].
Proof.
  destruct (flashed_value_is_read
              (store_reading FlashStore.empty) (store_reading FlashStore.empty)
              (store_reading
                 (FlashStore.next
                    (FlashStore.flash (KArray ["form"; "errors"]) (JString "too short")
                       (store_reading FlashStore.empty))))
              (KArray ["form"; "errors"]) (JString "too short") ["form"]
              eq_refl eq_refl)
    as (ws & Hws & Hget & _).
  - now exists ["errors"].
  - rewrite Hget. simpl in Hws. injection Hws as <-. reflexivity.
Defined.
